(** * jmonticelli::ring_buffer: a fixed-capacity double-ended circular buffer

    Shallow embedding of [include/jmonticelli/ring_buffer.hh].

    Conventions of the embedding.
    - [std::size_t] is the 64-bit unsigned type of the LP64 targets the header
      is written for; every [size_t] operation is written with its
      wrap-around ([wrap]).
    - A [ValueType*] is an address counted in objects of [ValueType]; the null
      pointer is address 0.  Pointer arithmetic is plain integer arithmetic.
    - The objects of type [ValueType] live in one heap shared by all
      containers ([cells]).  A cell that is absent holds no live object:
      it was never assigned, or its destructor has run.
    - Destructor calls and [deallocate] calls are logged in the heap, so that
      statements on object lifetime can be made.
    - [std::allocator] is a bump allocator over an arena of [limit] objects;
      it throws [bad_alloc] when the arena is exhausted. *)

From Stdlib Require Import ZArith Lia.
From stdpp Require Import base option list strings gmap.

Local Open Scope Z_scope.

(** ** Machine integers *)

Definition size_t_bits : Z := 64.
Definition SIZE_MAX : Z := 2 ^ size_t_bits - 1.

(** Conversion of a mathematical integer to [std::size_t]. *)
Definition wrap (z : Z) : Z := z mod 2 ^ size_t_bits.

Definition nullptr : Z := 0.

(** ** Outcomes of a call *)

Inductive exception : Type :=
  | runtime_error (what : string)
  | bad_alloc.

(** [Undefined] is a read of a cell that holds no live object; [OutOfFuel]
    is a loop that was not given enough iterations. *)
Inductive result (A : Type) : Type :=
  | Ok (a : A)
  | Throw (e : exception)
  | Undefined
  | OutOfFuel.

Arguments Ok {A} a.
Arguments Throw {A} e.
Arguments Undefined {A}.
Arguments OutOfFuel {A}.

Definition result_bind_def {A B : Type} (k : A → result B) (m : result A) : result B :=
  match m with
  | Ok a => k a
  | Throw e => Throw e
  | Undefined => Undefined
  | OutOfFuel => OutOfFuel
  end.

#[global] Instance result_ret : MRet result := @Ok.
#[global] Instance result_bind : MBind result := @result_bind_def.

(** ** The container's fields (lines 550-570) *)

Record ring_buffer : Type := mk_ring_buffer {
  max_capacity_ : Z;
  buffer_ : Z;
  buffer_end_ : Z;
  begin_ptr_ : Z;
  end_ptr_ : Z;
  current_size_ : Z
}.

Definition set_begin_ptr_ (rb : ring_buffer) (p : Z) : ring_buffer :=
  mk_ring_buffer (max_capacity_ rb) (buffer_ rb) (buffer_end_ rb) p (end_ptr_ rb) (current_size_ rb).

Definition set_end_ptr_ (rb : ring_buffer) (p : Z) : ring_buffer :=
  mk_ring_buffer (max_capacity_ rb) (buffer_ rb) (buffer_end_ rb) (begin_ptr_ rb) p (current_size_ rb).

Definition set_current_size_ (rb : ring_buffer) (n : Z) : ring_buffer :=
  mk_ring_buffer (max_capacity_ rb) (buffer_ rb) (buffer_end_ rb) (begin_ptr_ rb) (end_ptr_ rb) n.

(** ** Iterators (lines 233-321) *)

Record internal_Iterator : Type := mk_Iterator {
  IsConst : bool;
  idx_ : Z
}.

(** ** Type traits of the element type

    [std::is_destructible<ValueType>::value] selects the overloads of
    [remove_advance_left], [remove_advance_right] and [remove_elements];
    [sizeof(ValueType)] is tested by the constructor. *)

Class type_traits (ValueType : Type) : Type := mk_type_traits {
  is_destructible : bool;
  sizeof_ValueType : Z
}.

Section Container.

Context {ValueType : Type} {traits : type_traits ValueType}.

(** ** The heap *)

Record heap : Type := mk_heap {
  cells : gmap Z ValueType;
  brk : Z;
  limit : Z;
  destroyed : list (Z * option ValueType);
  released : list (Z * Z)
}.

Definition set_cells (h : heap) (m : gmap Z ValueType) : heap :=
  mk_heap m (brk h) (limit h) (destroyed h) (released h).

(** [allocator_.allocate(n)] *)
Definition allocate (n : Z) (h : heap) : result (Z * heap) :=
  if brk h + n <=? limit h
  then Ok (brk h, mk_heap (cells h) (brk h + n) (limit h) (destroyed h) (released h))
  else Throw bad_alloc.

(** [allocator_.deallocate(p, n)] *)
Definition deallocate (p n : Z) (h : heap) : heap :=
  mk_heap (cells h) (brk h) (limit h) (destroyed h) ((p, n) :: released h).

(** [*p = v] *)
Definition store (p : Z) (v : ValueType) (h : heap) : heap :=
  set_cells h (<[p := v]> (cells h)).

(** [*p] read as a value *)
Definition load (p : Z) (h : heap) : result ValueType :=
  match cells h !! p with
  | Some v => Ok v
  | None => Undefined
  end.

(** [p->~ValueType()]: the call is logged, most recent first, with the
    object it found, and the cell holds no live object afterwards. *)
Definition destroy (p : Z) (h : heap) : heap :=
  mk_heap (delete p (cells h)) (brk h) (limit h)
          ((p, cells h !! p) :: destroyed h) (released h).

(** ** Construction (lines 38-70) *)

Definition ring_buffer_ctor (max_capacity : Z) (h : heap) : result (ring_buffer * heap) :=
  if max_capacity =? 0
  then Throw (runtime_error "ring_buffer: invalid size 0 requested")
  else if max_capacity >=? SIZE_MAX / 2
  then Throw (runtime_error "ring_buffer: exceeded limit std::size_t max / 2")
  else if sizeof_ValueType =? 0
  then Throw (runtime_error "ring_buffer: Cannot allocate sizeless type")
  else
    '(buffer, h') ← allocate max_capacity h;
    let rb := mk_ring_buffer max_capacity buffer (buffer + (max_capacity - 1)) buffer buffer 0 in
    if nullptr =? buffer
    then Throw (runtime_error "ring_buffer: Failed to allocate internal buffer")
    else Ok (rb, h').

(** ** Destruction (lines 94-97) *)

Definition ring_buffer_dtor (rb : ring_buffer) (h : heap) : heap :=
  deallocate (buffer_ rb) (max_capacity_ rb) h.

(** ** Accessors (lines 220-231) *)

Definition size (rb : ring_buffer) : Z := current_size_ rb.
Definition capacity (rb : ring_buffer) : Z := max_capacity_ rb.

(** ** Index checks and slot arithmetic (lines 364-380) *)

Definition assert_idx (rb : ring_buffer) (idx : Z) (calling_func : string) : result unit :=
  if idx >=? current_size_ rb
  then Throw (runtime_error ("ring_buffer index out-of-bounds in " +:+ calling_func))
  else Ok tt.

Definition unchecked_ptr_from_idx (rb : ring_buffer) (idx : Z) : Z :=
  let begin_diff := begin_ptr_ rb - buffer_ rb in
  let buffer_idx := wrap (begin_diff + idx) mod max_capacity_ rb in
  buffer_ rb + buffer_idx.

(** ** Cursor movement (lines 389-414) *)

Definition advance_ptr_left (rb : ring_buffer) (ptr : Z) : Z :=
  if ptr =? buffer_ rb then buffer_end_ rb else ptr - 1.

Definition advance_ptr_right (rb : ring_buffer) (ptr : Z) : Z :=
  if ptr =? buffer_end_ rb then buffer_ rb else ptr + 1.

(** The two overloads of each of [remove_advance_left] and
    [remove_advance_right] (lines 425-484) are selected by
    [std::is_destructible]. *)
Definition remove_advance_left (rb : ring_buffer) (ptr : Z) (h : heap) : Z * heap :=
  if is_destructible
  then (advance_ptr_left rb ptr, destroy ptr h)
  else (advance_ptr_left rb ptr, h).

Definition remove_advance_right (rb : ring_buffer) (ptr : Z) (h : heap) : Z * heap :=
  if is_destructible
  then (advance_ptr_right rb ptr, destroy ptr h)
  else (advance_ptr_right rb ptr, h).

(** ** Insertion (lines 99-123 and 486-524) *)

Definition add_back_uninitialized_element (rb : ring_buffer) (h : heap) : ring_buffer * heap :=
  let next_size := Z.min (wrap (current_size_ rb + 1)) (max_capacity_ rb) in
  let rb1 := if 0 <? current_size_ rb
             then set_end_ptr_ rb (advance_ptr_right rb (end_ptr_ rb))
             else rb in
  if current_size_ rb1 =? next_size
  then let '(p, h') := remove_advance_right rb1 (begin_ptr_ rb1) h in
       (set_begin_ptr_ rb1 p, h')
  else (set_current_size_ rb1 next_size, h).

Definition add_front_uninitialized_element (rb : ring_buffer) (h : heap) : ring_buffer * heap :=
  let next_size := Z.min (wrap (current_size_ rb + 1)) (max_capacity_ rb) in
  let rb1 := if 0 <? current_size_ rb
             then set_begin_ptr_ rb (advance_ptr_left rb (begin_ptr_ rb))
             else rb in
  if current_size_ rb1 =? next_size
  then let '(p, h') := remove_advance_left rb1 (end_ptr_ rb1) h in
       (set_end_ptr_ rb1 p, h')
  else (set_current_size_ rb1 next_size, h).

Definition push_back (type : ValueType) (rb : ring_buffer) (h : heap) : ring_buffer * heap :=
  let '(rb', h') := add_back_uninitialized_element rb h in
  (rb', store (end_ptr_ rb') type h').

(** [emplace_back(args...)] assigns the temporary [ValueType(args...)]; the
    argument here is that temporary, which is no object of the heap. *)
Definition emplace_back (tmp : ValueType) (rb : ring_buffer) (h : heap) : ring_buffer * heap :=
  let '(rb', h') := add_back_uninitialized_element rb h in
  (rb', store (end_ptr_ rb') tmp h').

Definition push_front (type : ValueType) (rb : ring_buffer) (h : heap) : ring_buffer * heap :=
  let '(rb', h') := add_front_uninitialized_element rb h in
  (rb', store (begin_ptr_ rb') type h').

Definition emplace_front (tmp : ValueType) (rb : ring_buffer) (h : heap) : ring_buffer * heap :=
  let '(rb', h') := add_front_uninitialized_element rb h in
  (rb', store (begin_ptr_ rb') tmp h').

(** ** Checked access (lines 125-169) *)

Definition at_ (rb : ring_buffer) (idx : Z) : result Z :=
  _ ← assert_idx rb idx "at";
  Ok (unchecked_ptr_from_idx rb idx).

Definition subscript (rb : ring_buffer) (idx : Z) : result Z := at_ rb idx.

Definition front (rb : ring_buffer) : result Z := at_ rb 0.

Definition back (rb : ring_buffer) : result Z :=
  at_ rb (if current_size_ rb =? 0 then 0 else wrap (current_size_ rb - 1)).

(** ** Removal (lines 176-203)

    Lines 183 and 200 read [begin_ptr_ = remove_advance_right();] and
    [end_ptr_ = remove_advance_left();]: the calls name no pointer, while
    every overload (lines 425-484) takes the pointer to remove.  The
    embedding passes the cursor that is assigned, as the two other call
    sites do (lines 498 and 518). *)

Definition pop_front (rb : ring_buffer) (h : heap) : bool * (ring_buffer * heap) :=
  if current_size_ rb =? 0
  then (false, (rb, h))
  else
    let '(p, h') := remove_advance_right rb (begin_ptr_ rb) h in
    let rb1 := set_begin_ptr_ rb p in
    (true, (set_current_size_ rb1 (wrap (current_size_ rb1 - 1)), h')).

Definition pop_back (rb : ring_buffer) (h : heap) : bool * (ring_buffer * heap) :=
  if current_size_ rb =? 0
  then (false, (rb, h))
  else
    let '(p, h') := remove_advance_left rb (end_ptr_ rb) h in
    let rb1 := set_end_ptr_ rb p in
    (true, (set_current_size_ rb1 (wrap (current_size_ rb1 - 1)), h')).

(** ** Iterator operations (lines 255-359)

    The container an iterator points to is passed to the operations that
    go through [container_]. *)

Definition begin_ (rb : ring_buffer) : internal_Iterator := mk_Iterator false 0.
Definition cbegin (rb : ring_buffer) : internal_Iterator := mk_Iterator true 0.
Definition end_ (rb : ring_buffer) : internal_Iterator := mk_Iterator false (current_size_ rb).
Definition cend (rb : ring_buffer) : internal_Iterator := mk_Iterator true (current_size_ rb).

(** [operator==] and [operator!=] *)
Definition operator_eq (a b : internal_Iterator) : bool := idx_ a =? idx_ b.
Definition operator_ne (a b : internal_Iterator) : bool := negb (operator_eq a b).

(** [operator++], on the iterator itself *)
Definition operator_incr (rb : ring_buffer) (it : internal_Iterator) : internal_Iterator :=
  mk_Iterator (IsConst it) (Z.min (size rb) (wrap (idx_ it + 1))).

(** [operator--], on the iterator itself *)
Definition operator_decr (it : internal_Iterator) : internal_Iterator :=
  if idx_ it <=? 0 then it else mk_Iterator (IsConst it) (wrap (idx_ it - 1)).

(** [operator*], both overloads (lines 294-304) *)
Definition operator_star (rb : ring_buffer) (it : internal_Iterator) : result Z :=
  at_ rb (idx_ it).

(** [operator->], both overloads (lines 306-316) *)
Definition operator_arrow (rb : ring_buffer) (it : internal_Iterator) : Z :=
  unchecked_ptr_from_idx rb (idx_ it).

(** ** clear (lines 208-215 and 529-548) *)

(** The loop [for (it = ...; it != end(); ++it) it->~ValueType();] *)
Fixpoint remove_elements_loop (fuel : nat) (rb : ring_buffer) (it : internal_Iterator)
    (h : heap) : result heap :=
  match fuel with
  | O => OutOfFuel
  | S fuel' =>
      if operator_ne it (end_ rb)
      then remove_elements_loop fuel' rb (operator_incr rb it) (destroy (operator_arrow rb it) h)
      else Ok h
  end.

Definition remove_elements (fuel : nat) (rb : ring_buffer) (h : heap) : result heap :=
  if is_destructible
  then remove_elements_loop fuel rb (begin_ rb) h
  else Ok h.

Definition clear (fuel : nat) (rb : ring_buffer) (h : heap) : result (ring_buffer * heap) :=
  h' ← remove_elements fuel rb h;
  let rb1 := set_current_size_ rb 0 in
  let rb2 := set_begin_ptr_ rb1 (buffer_ rb1) in
  Ok (set_end_ptr_ rb2 (buffer_ rb2), h').

(** ** Copy construction (lines 72-92) *)

(** [std::copy(first, last, std::back_inserter(dst))] with [first] and
    [last] iterators of [src]. *)
Fixpoint std_copy (fuel : nat) (src : ring_buffer) (first last : internal_Iterator)
    (dst : ring_buffer) (h : heap) : result (ring_buffer * heap) :=
  match fuel with
  | O => OutOfFuel
  | S fuel' =>
      if operator_ne first last
      then
        p ← operator_star src first;
        v ← load p h;
        let '(dst', h') := push_back v dst h in
        std_copy fuel' src (operator_incr src first) last dst' h'
      else Ok (dst, h)
  end.

Definition ring_buffer_copy_ctor (fuel : nat) (other : ring_buffer) (h : heap)
    : result (ring_buffer * heap) :=
  if max_capacity_ other =? 0
  then Throw (runtime_error "ring_buffer: invalid size 0 requested")
  else
    '(buffer, h') ← allocate (max_capacity_ other) h;
    let rb := mk_ring_buffer (max_capacity_ other) buffer
                (buffer + (max_capacity_ other - 1)) buffer buffer 0 in
    if nullptr =? buffer
    then Throw (runtime_error "ring_buffer: Failed to allocate internal buffer")
    else std_copy fuel other (cbegin other) (cend other) rb h'.

(** ** Sequences of calls on one container *)

Inductive call : Type :=
  | PushBack (v : ValueType)
  | EmplaceBack (v : ValueType)
  | PushFront (v : ValueType)
  | EmplaceFront (v : ValueType)
  | PopFront
  | PopBack
  | Clear.

Definition run_call (fuel : nat) (c : call) (s : ring_buffer * heap)
    : result (ring_buffer * heap) :=
  match c with
  | PushBack v => Ok (push_back v s.1 s.2)
  | EmplaceBack v => Ok (emplace_back v s.1 s.2)
  | PushFront v => Ok (push_front v s.1 s.2)
  | EmplaceFront v => Ok (emplace_front v s.1 s.2)
  | PopFront => Ok (pop_front s.1 s.2).2
  | PopBack => Ok (pop_back s.1 s.2).2
  | Clear => clear fuel s.1 s.2
  end.

Fixpoint run_calls (fuel : nat) (cs : list call) (s : ring_buffer * heap)
    : result (ring_buffer * heap) :=
  match cs with
  | [] => Ok s
  | c :: cs' => s' ← run_call fuel c s; run_calls fuel cs' s'
  end.

(** ** Observations *)

(** The object at logical position [idx], if the position is occupied and
    the slot holds a live object. *)
Definition element (rb : ring_buffer) (h : heap) (idx : Z) : option ValueType :=
  match at_ rb idx with
  | Ok p => cells h !! p
  | _ => None
  end.

(** The logical contents, front to back: positions 0 .. size-1. *)
Definition contents (rb : ring_buffer) (h : heap) : list (option ValueType) :=
  element rb h <$> seqZ 0 (size rb).

(** [n] steps to the right from [p]. *)
Definition walk_right (rb : ring_buffer) (n : Z) (p : Z) : Z :=
  Nat.iter (Z.to_nat n) (advance_ptr_right rb) p.

End Container.

Arguments heap ValueType : clear implicits.
Arguments call ValueType : clear implicits.

(** ** Invariants and scenarios *)

(** Shape of a container that a constructor produced: the capacity passed
    the constructor's checks, the block is not null, and both cursors point
    into the block. *)
Definition wf (rb : ring_buffer) : Prop :=
  1 ≤ max_capacity_ rb < SIZE_MAX / 2 ∧
  1 ≤ buffer_ rb ∧
  buffer_end_ rb = buffer_ rb + (max_capacity_ rb - 1) ∧
  buffer_ rb ≤ begin_ptr_ rb ≤ buffer_end_ rb ∧
  buffer_ rb ≤ end_ptr_ rb ≤ buffer_end_ rb ∧
  0 ≤ current_size_ rb ≤ max_capacity_ rb.

(** The exception thrown by [assert_idx]. *)
Definition out_of_bounds (calling_func : string) : exception :=
  runtime_error ("ring_buffer index out-of-bounds in " +:+ calling_func).

(** A call leaves the block where it is. *)
Definition same_block (rb rb' : ring_buffer) : Prop :=
  max_capacity_ rb' = max_capacity_ rb ∧
  buffer_ rb' = buffer_ rb ∧
  buffer_end_ rb' = buffer_end_ rb.

(** Addresses are not negative. *)
Definition heap_ok {ValueType : Type} (h : heap ValueType) : Prop := 0 ≤ brk h.

(** The destructor calls of [remove_elements], front to back. *)
Definition destroy_range {ValueType : Type} (rb : ring_buffer) (lo n : Z)
    (h : heap ValueType) : heap ValueType :=
  foldl (λ h' idx, destroy (unchecked_ptr_from_idx rb idx) h') h (seqZ lo n).

(** Two heaps that differ only inside the block of [rb], and only in the
    objects and the destructor log. *)
Definition frame {ValueType : Type} (rb : ring_buffer) (h h' : heap ValueType) : Prop :=
  brk h' = brk h ∧ limit h' = limit h ∧ released h' = released h ∧
  ∀ p, ¬ (buffer_ rb ≤ p ≤ buffer_end_ rb) → cells h' !! p = cells h !! p.

(** The container's block was handed out by the heap's allocator. *)
Definition owns {ValueType : Type} (h : heap ValueType) (rb : ring_buffer) : Prop :=
  buffer_ rb + max_capacity_ rb ≤ brk h.

(** Every logical position holds a live object. *)
Definition live {ValueType : Type} (rb : ring_buffer) (h : heap ValueType) : Prop :=
  ∀ idx, 0 ≤ idx < size rb → is_Some (element rb h idx).

(** The cursor relation as the specification words it: [size] steps to the
    right of the begin cursor lies the end cursor. *)
Definition cursors_size_apart (rb : ring_buffer) : Prop :=
  walk_right rb (size rb) (begin_ptr_ rb) = end_ptr_ rb.

(** The cursor relation of the code, both cursors being inclusive:
    [size - 1] steps to the right of the begin cursor lies the end cursor,
    and the cursors coincide when the buffer is empty. *)
Definition cursors_linked (rb : ring_buffer) : Prop :=
  walk_right rb (size rb - 1) (begin_ptr_ rb) = end_ptr_ rb.

(** What an insertion does to a sequence that has room for it. *)
Definition insertion {ValueType : Type} (l : list (option ValueType)) (c : call ValueType)
    : list (option ValueType) :=
  match c with
  | PushBack v | EmplaceBack v => l ++ [Some v]
  | PushFront v | EmplaceFront v => Some v :: l
  | _ => l
  end.

(** The calls on a sequence of at most [cap] elements: what the container is
    to do to its logical contents. *)
Definition deque_call {ValueType : Type} (cap : Z) (c : call ValueType)
    (l : list (option ValueType)) : list (option ValueType) :=
  match c with
  | PushBack v | EmplaceBack v =>
      (if Z.of_nat (length l) <? cap then l else tail l) ++ [Some v]
  | PushFront v | EmplaceFront v =>
      Some v :: (if Z.of_nat (length l) <? cap then l else take (length l - 1) l)
  | PopFront => tail l
  | PopBack => take (length l - 1) l
  | Clear => []
  end.

(** A call that removes the only element of the buffer. *)
Definition removes_last {ValueType : Type} (c : call ValueType) (rb : ring_buffer) : bool :=
  match c with
  | PopFront | PopBack => size rb =? 1
  | _ => false
  end.

(** States reached by calls none of which removes the only element. *)
Inductive reaches {ValueType : Type} {traits : type_traits ValueType} (fuel : nat)
    : ring_buffer * heap ValueType → ring_buffer * heap ValueType → Prop :=
  | reaches_refl s : reaches fuel s s
  | reaches_step s c s1 s2 :
      removes_last c s.1 = false →
      run_call fuel c s = Ok s1 →
      reaches fuel s1 s2 →
      reaches fuel s s2.

(** [int] elements, and an empty arena of [n] objects. *)
#[global] Instance int_traits : type_traits Z :=
  {| is_destructible := true; sizeof_ValueType := 4 |}.

Definition arena (n : Z) : heap Z := mk_heap ∅ 1 n [] [].

(** [for (i = 0; i < 5; ++i) { a.push_front(2 * i); a.push_back(2 * i + 1); }] *)
Definition interleaved : list (call Z) :=
  flat_map (λ i, [PushFront (2 * i); PushBack (2 * i + 1)]) (seqZ 0 5).


(** The state after a constructor call and a sequence of calls that all
    return. *)
Definition built (cap : Z) (cs : list (call Z)) (h : heap Z) : result (ring_buffer * heap Z) :=
  s ← ring_buffer_ctor cap h; run_calls (Z.to_nat cap + 1) cs s.

(** A full buffer of two [int]s in the block at address 1. *)
Definition full_pair : ring_buffer := mk_ring_buffer 2 1 2 1 2 2.
Definition full_pair_heap : heap Z := mk_heap {[1 := 10; 2 := 20]} 3 10 [] [].

(** A buffer of capacity 3 after [push_back(1); push_front(0)]: the front
    element is in the last slot of the block, the back element in the
    first. *)
Definition wrapped : ring_buffer := mk_ring_buffer 3 1 3 3 1 2.
Definition wrapped_heap : heap Z := mk_heap {[1 := 1; 3 := 0]} 4 100 [] [].

(** A buffer of capacity 3 right after construction in [arena 10]. *)
Definition fresh3 : ring_buffer * heap Z :=
  (mk_ring_buffer 3 1 3 1 1 0, mk_heap ∅ 4 10 [] []).

(** ** Callers of the iterator interface *)

(** The largest value of [difference_type], which the iterators declare as
    [std::int64_t]. *)
Definition INT64_MAX : Z := 2 ^ 63 - 1.

(** [std::distance(first, last)] on iterators of [rb], whose category is
    [std::bidirectional_iterator_tag]: the loop
    [while (first != last) { ++first; ++n; }] on a counter [n] of type
    [difference_type], starting from 0.  Incrementing the counter beyond
    its largest value is undefined. *)
Fixpoint std_distance_loop (fuel : nat) (rb : ring_buffer)
    (first last : internal_Iterator) (n : Z) : result Z :=
  match fuel with
  | O => OutOfFuel
  | S fuel' =>
      if operator_ne first last
      then
        if n <? INT64_MAX
        then std_distance_loop fuel' rb (operator_incr rb first) last (n + 1)
        else Undefined
      else Ok n
  end.

Definition std_distance (fuel : nat) (rb : ring_buffer)
    (first last : internal_Iterator) : result Z :=
  std_distance_loop fuel rb first last 0.

(** [std::uninitialized_copy(first, last, out)] into the storage of a
    vector: the loop [for (; first != last; ++first)] that constructs the
    next element from the value of [*first]. *)
Fixpoint uninitialized_copy {ValueType : Type} (fuel : nat) (rb : ring_buffer)
    (first last : internal_Iterator) (h : heap ValueType) : result (list ValueType) :=
  match fuel with
  | O => OutOfFuel
  | S fuel' =>
      if operator_ne first last
      then
        p ← operator_star rb first;
        v ← load p h;
        vs ← uninitialized_copy fuel' rb (operator_incr rb first) last h;
        Ok (v :: vs)
      else Ok []
  end.

(** [std::vector<ValueType> vec(first, last)] with iterators of [rb] (test
    "Convert a ring buffer into a vector using iterators").  The iterators
    are not random access, so the range constructor makes two passes: it
    measures the range with [std::distance] to allocate the storage, then
    copies the elements into it.  Each pass is given [fuel] steps. *)
Definition to_vector {ValueType : Type} (fuel : nat) (rb : ring_buffer)
    (first last : internal_Iterator) (h : heap ValueType) : result (list ValueType) :=
  _ ← std_distance fuel rb first last;
  uninitialized_copy fuel rb first last h.

(** The calls whose member function can be instantiated as it is written:
    all but [pop_front] and [pop_back] (lines 183 and 200). *)
Definition instantiable {ValueType : Type} (c : call ValueType) : Prop :=
  c ≠ PopFront ∧ c ≠ PopBack.

(** The calls that insert an element. *)
Definition inserts {ValueType : Type} (c : call ValueType) : Prop :=
  c ≠ PopFront ∧ c ≠ PopBack ∧ c ≠ Clear.


(** The container that the constructor builds on the block at [buffer]. *)
Definition constructed (max_capacity buffer : Z) : ring_buffer :=
  mk_ring_buffer max_capacity buffer (buffer + (max_capacity - 1)) buffer buffer 0.

(** An element type that is not destructible (a deleted destructor), with
    objects of 8 bytes. *)
Definition indestructible_traits : type_traits Z :=
  {| is_destructible := false; sizeof_ValueType := 8 |}.

(** * Properties *)

(** ** Arithmetic of [size_t] and of slots *)

Lemma two_pow_size_t : 2 ^ size_t_bits = 18446744073709551616.
Proof. reflexivity. Qed.

Lemma SIZE_MAX_half : SIZE_MAX / 2 = 9223372036854775807.
Proof. reflexivity. Qed.

Lemma wrap_small (z : Z) : 0 ≤ z < 2 ^ size_t_bits → wrap z = z.
Proof. intros Hz. unfold wrap. by apply Z.mod_small. Qed.

Lemma mod_window (c x : Z) :
  0 < c → 0 ≤ x < 2 * c → x mod c = if x <? c then x else x - c.
Proof.
  intros Hc Hx. destruct (Z.ltb_spec x c) as [Hlt|Hge].
  - apply Z.mod_small. lia.
  - symmetry. apply (Z.mod_unique x c 1 (x - c)); lia.
Qed.

Ltac wf_facts :=
  unfold wf, owns, size, capacity in *; rewrite ?SIZE_MAX_half, ?two_pow_size_t in *.

Ltac split_tests :=
  repeat match goal with
  | |- context [?a =? ?b] => destruct (Z.eqb_spec a b)
  | |- context [?a <? ?b] => destruct (Z.ltb_spec a b)
  | |- context [?a <=? ?b] => destruct (Z.leb_spec a b)
  | |- context [?a >=? ?b] => rewrite (Z.geb_leb a b)
  end.

Ltac step_bind := cbn [mbind result_bind result_bind_def].

Section Properties.

Context {ValueType : Type} {traits : type_traits ValueType}.

Implicit Types (rb : ring_buffer) (h : heap ValueType) (it : internal_Iterator).

(** The slot computed by [unchecked_ptr_from_idx] without the [size_t]
    conversion, for the indexes the container uses. *)
Lemma unchecked_ptr_from_idx_mod rb idx :
  wf rb → 0 ≤ idx ≤ max_capacity_ rb →
  unchecked_ptr_from_idx rb idx
  = buffer_ rb + (begin_ptr_ rb - buffer_ rb + idx) mod max_capacity_ rb.
Proof.
  intros Hwf Hidx. unfold unchecked_ptr_from_idx. cbv zeta.
  rewrite wrap_small; [done|]. wf_facts. lia.
Qed.

Lemma unchecked_ptr_from_idx_window rb idx :
  wf rb → 0 ≤ idx ≤ max_capacity_ rb →
  unchecked_ptr_from_idx rb idx
  = if begin_ptr_ rb + idx <=? buffer_end_ rb
    then begin_ptr_ rb + idx
    else begin_ptr_ rb + idx - max_capacity_ rb.
Proof.
  intros Hwf Hidx. rewrite unchecked_ptr_from_idx_mod by done.
  rewrite mod_window by (wf_facts; lia). wf_facts. split_tests; lia.
Qed.

(** Whatever the index, the slot lies in the container's block. *)
Lemma unchecked_ptr_from_idx_in_block rb idx :
  wf rb → buffer_ rb ≤ unchecked_ptr_from_idx rb idx ≤ buffer_end_ rb.
Proof.
  intros Hwf. unfold unchecked_ptr_from_idx. cbv zeta.
  pose proof (Z.mod_pos_bound (wrap (begin_ptr_ rb - buffer_ rb + idx)) (max_capacity_ rb)).
  wf_facts. lia.
Qed.

Lemma advance_ptr_right_in_block rb p :
  wf rb → buffer_ rb ≤ p ≤ buffer_end_ rb →
  buffer_ rb ≤ advance_ptr_right rb p ≤ buffer_end_ rb.
Proof. intros Hwf Hp. unfold advance_ptr_right. wf_facts. split_tests; lia. Qed.

Lemma advance_ptr_left_in_block rb p :
  wf rb → buffer_ rb ≤ p ≤ buffer_end_ rb →
  buffer_ rb ≤ advance_ptr_left rb p ≤ buffer_end_ rb.
Proof. intros Hwf Hp. unfold advance_ptr_left. wf_facts. split_tests; lia. Qed.

(** [n] steps to the right, in closed form. *)
Lemma walk_right_mod rb n p :
  wf rb → buffer_ rb ≤ p ≤ buffer_end_ rb → 0 ≤ n →
  walk_right rb n p = buffer_ rb + (p - buffer_ rb + n) mod max_capacity_ rb.
Proof.
  intros Hwf Hp Hn. unfold walk_right.
  rewrite <- (Z2Nat.id n) at 2 by done.
  induction (Z.to_nat n) as [|k IH].
  - simpl. rewrite Z.add_0_r, Z.mod_small; wf_facts; lia.
  - rewrite Nat.iter_succ, IH. unfold advance_ptr_right.
    replace (p - buffer_ rb + Z.of_nat (S k))
      with ((p - buffer_ rb + Z.of_nat k) + 1) by lia.
    assert (Hc : 0 < max_capacity_ rb) by (wf_facts; lia).
    pose proof (Z.mod_pos_bound (p - buffer_ rb + Z.of_nat k) _ Hc) as Hb.
    rewrite <- (Zplus_mod_idemp_l (p - buffer_ rb + Z.of_nat k)).
    rewrite (mod_window _ (_ + 1)) by lia.
    wf_facts. split_tests; lia.
Qed.

Lemma walk_right_nonpos rb n p : n ≤ 0 → walk_right rb n p = p.
Proof. intros Hn. unfold walk_right. by rewrite Z2Nat.nonpos. Qed.

(** ** The insertion step in closed form *)

Lemma add_back_uninitialized_element_grow rb h :
  wf rb → current_size_ rb < max_capacity_ rb →
  add_back_uninitialized_element rb h
  = (mk_ring_buffer (max_capacity_ rb) (buffer_ rb) (buffer_end_ rb) (begin_ptr_ rb)
       (if 0 <? current_size_ rb then advance_ptr_right rb (end_ptr_ rb) else end_ptr_ rb)
       (current_size_ rb + 1), h).
Proof.
  intros Hwf Hlt. unfold add_back_uninitialized_element. cbv zeta.
  rewrite wrap_small by (wf_facts; lia).
  rewrite Z.min_l by lia.
  destruct (Z.ltb_spec 0 (current_size_ rb)); simpl;
    (destruct (Z.eqb_spec (current_size_ rb) (current_size_ rb + 1)); [lia|done]).
Qed.

Lemma add_back_uninitialized_element_full rb h :
  wf rb → current_size_ rb = max_capacity_ rb →
  add_back_uninitialized_element rb h
  = (mk_ring_buffer (max_capacity_ rb) (buffer_ rb) (buffer_end_ rb)
       (advance_ptr_right rb (begin_ptr_ rb))
       (advance_ptr_right rb (end_ptr_ rb))
       (current_size_ rb),
     if is_destructible then destroy (begin_ptr_ rb) h else h).
Proof.
  intros Hwf Hfull. unfold add_back_uninitialized_element. cbv zeta.
  rewrite wrap_small by (wf_facts; lia).
  rewrite Z.min_r by lia.
  destruct (Z.ltb_spec 0 (current_size_ rb)); [|wf_facts; lia]. simpl.
  destruct (Z.eqb_spec (current_size_ rb) (max_capacity_ rb)); [|lia].
  unfold remove_advance_right, advance_ptr_right. simpl. by destruct is_destructible.
Qed.

Lemma add_front_uninitialized_element_grow rb h :
  wf rb → current_size_ rb < max_capacity_ rb →
  add_front_uninitialized_element rb h
  = (mk_ring_buffer (max_capacity_ rb) (buffer_ rb) (buffer_end_ rb)
       (if 0 <? current_size_ rb then advance_ptr_left rb (begin_ptr_ rb) else begin_ptr_ rb)
       (end_ptr_ rb)
       (current_size_ rb + 1), h).
Proof.
  intros Hwf Hlt. unfold add_front_uninitialized_element. cbv zeta.
  rewrite wrap_small by (wf_facts; lia).
  rewrite Z.min_l by lia.
  destruct (Z.ltb_spec 0 (current_size_ rb)); simpl;
    (destruct (Z.eqb_spec (current_size_ rb) (current_size_ rb + 1)); [lia|done]).
Qed.

Lemma add_front_uninitialized_element_full rb h :
  wf rb → current_size_ rb = max_capacity_ rb →
  add_front_uninitialized_element rb h
  = (mk_ring_buffer (max_capacity_ rb) (buffer_ rb) (buffer_end_ rb)
       (advance_ptr_left rb (begin_ptr_ rb))
       (advance_ptr_left rb (end_ptr_ rb))
       (current_size_ rb),
     if is_destructible then destroy (end_ptr_ rb) h else h).
Proof.
  intros Hwf Hfull. unfold add_front_uninitialized_element. cbv zeta.
  rewrite wrap_small by (wf_facts; lia).
  rewrite Z.min_r by lia.
  destruct (Z.ltb_spec 0 (current_size_ rb)); [|wf_facts; lia]. simpl.
  destruct (Z.eqb_spec (current_size_ rb) (max_capacity_ rb)); [|lia].
  unfold remove_advance_left, advance_ptr_left. simpl. by destruct is_destructible.
Qed.

(** ** Preservation of the shape *)

Lemma add_back_uninitialized_element_wf rb h :
  wf rb →
  wf (add_back_uninitialized_element rb h).1 ∧
  same_block rb (add_back_uninitialized_element rb h).1.
Proof.
  intros Hwf.
  destruct (Z.lt_ge_cases (current_size_ rb) (max_capacity_ rb)) as [Hlt|Hge].
  - rewrite add_back_uninitialized_element_grow by done.
    pose proof (advance_ptr_right_in_block rb (end_ptr_ rb) Hwf).
    unfold same_block. wf_facts. simpl. split_tests; lia.
  - rewrite add_back_uninitialized_element_full by (wf_facts; lia).
    pose proof (advance_ptr_right_in_block rb (end_ptr_ rb) Hwf).
    pose proof (advance_ptr_right_in_block rb (begin_ptr_ rb) Hwf).
    unfold same_block. wf_facts. simpl. lia.
Qed.

Lemma add_front_uninitialized_element_wf rb h :
  wf rb →
  wf (add_front_uninitialized_element rb h).1 ∧
  same_block rb (add_front_uninitialized_element rb h).1.
Proof.
  intros Hwf.
  destruct (Z.lt_ge_cases (current_size_ rb) (max_capacity_ rb)) as [Hlt|Hge].
  - rewrite add_front_uninitialized_element_grow by done.
    pose proof (advance_ptr_left_in_block rb (begin_ptr_ rb) Hwf).
    unfold same_block. wf_facts. simpl. split_tests; lia.
  - rewrite add_front_uninitialized_element_full by (wf_facts; lia).
    pose proof (advance_ptr_left_in_block rb (end_ptr_ rb) Hwf).
    pose proof (advance_ptr_left_in_block rb (begin_ptr_ rb) Hwf).
    unfold same_block. wf_facts. simpl. lia.
Qed.

Lemma push_back_fst v rb h :
  (push_back v rb h).1 = (add_back_uninitialized_element rb h).1.
Proof. unfold push_back. by destruct (add_back_uninitialized_element rb h). Qed.

Lemma emplace_back_eq v rb h : emplace_back v rb h = push_back v rb h.
Proof. reflexivity. Qed.

Lemma push_front_fst v rb h :
  (push_front v rb h).1 = (add_front_uninitialized_element rb h).1.
Proof. unfold push_front. by destruct (add_front_uninitialized_element rb h). Qed.

Lemma emplace_front_eq v rb h : emplace_front v rb h = push_front v rb h.
Proof. reflexivity. Qed.

(** The removal step in closed form. *)
Lemma pop_front_nonempty rb h :
  wf rb → current_size_ rb ≠ 0 →
  pop_front rb h
  = (true,
     (mk_ring_buffer (max_capacity_ rb) (buffer_ rb) (buffer_end_ rb)
        (advance_ptr_right rb (begin_ptr_ rb)) (end_ptr_ rb) (current_size_ rb - 1),
      if is_destructible then destroy (begin_ptr_ rb) h else h)).
Proof.
  intros Hwf Hne. unfold pop_front, remove_advance_right.
  destruct (Z.eqb_spec (current_size_ rb) 0); [done|].
  destruct is_destructible; unfold set_current_size_, set_begin_ptr_; simpl;
    rewrite wrap_small by (wf_facts; lia); done.
Qed.

Lemma pop_back_nonempty rb h :
  wf rb → current_size_ rb ≠ 0 →
  pop_back rb h
  = (true,
     (mk_ring_buffer (max_capacity_ rb) (buffer_ rb) (buffer_end_ rb)
        (begin_ptr_ rb) (advance_ptr_left rb (end_ptr_ rb)) (current_size_ rb - 1),
      if is_destructible then destroy (end_ptr_ rb) h else h)).
Proof.
  intros Hwf Hne. unfold pop_back, remove_advance_left.
  destruct (Z.eqb_spec (current_size_ rb) 0); [done|].
  destruct is_destructible; unfold set_current_size_, set_end_ptr_; simpl;
    rewrite wrap_small by (wf_facts; lia); done.
Qed.

Lemma pop_empty rb h :
  current_size_ rb = 0 →
  pop_front rb h = (false, (rb, h)) ∧ pop_back rb h = (false, (rb, h)).
Proof. intros Hz. unfold pop_front, pop_back. by rewrite Hz. Qed.

Lemma pop_front_wf rb h :
  wf rb → wf (pop_front rb h).2.1 ∧ same_block rb (pop_front rb h).2.1.
Proof.
  intros Hwf. destruct (Z.eq_dec (current_size_ rb) 0) as [Hz|Hnz].
  - rewrite (proj1 (pop_empty rb h Hz)). by unfold same_block.
  - rewrite pop_front_nonempty by done.
    pose proof (advance_ptr_right_in_block rb (begin_ptr_ rb) Hwf).
    unfold same_block. wf_facts. simpl. lia.
Qed.

Lemma pop_back_wf rb h :
  wf rb → wf (pop_back rb h).2.1 ∧ same_block rb (pop_back rb h).2.1.
Proof.
  intros Hwf. destruct (Z.eq_dec (current_size_ rb) 0) as [Hz|Hnz].
  - rewrite (proj2 (pop_empty rb h Hz)). by unfold same_block.
  - rewrite pop_back_nonempty by done.
    pose proof (advance_ptr_left_in_block rb (end_ptr_ rb) Hwf).
    unfold same_block. wf_facts. simpl. lia.
Qed.

(** ** The loop of [clear] *)

Lemma remove_elements_loop_spec (k : nat) : ∀ fuel rb c idx h,
  0 ≤ idx → idx + Z.of_nat k = current_size_ rb →
  current_size_ rb < 2 ^ size_t_bits →
  (k < fuel)%nat →
  remove_elements_loop fuel rb (mk_Iterator c idx) h
  = Ok (destroy_range rb idx (Z.of_nat k) h).
Proof.
  induction k as [|k IH]; intros fuel rb c idx h Hidx Hk Hsz Hfuel;
    (destruct fuel as [|fuel]; [lia|]); simpl;
    unfold operator_ne, operator_eq, end_; simpl.
  - destruct (Z.eqb_spec idx (current_size_ rb)); [done|lia].
  - destruct (Z.eqb_spec idx (current_size_ rb)); [lia|]. simpl.
    unfold operator_incr, operator_arrow, size. simpl.
    rewrite wrap_small by lia. rewrite Z.min_r by lia.
    rewrite (IH fuel) by lia.
    unfold destroy_range. rewrite (seqZ_cons idx) by lia. simpl.
    do 3 f_equal. lia.
Qed.

Lemma clear_spec fuel rb h :
  wf rb → (Z.to_nat (current_size_ rb) < fuel)%nat →
  clear fuel rb h
  = Ok (mk_ring_buffer (max_capacity_ rb) (buffer_ rb) (buffer_end_ rb)
          (buffer_ rb) (buffer_ rb) 0,
        if is_destructible then destroy_range rb 0 (current_size_ rb) h else h).
Proof.
  intros Hwf Hfuel. unfold clear, remove_elements.
  destruct is_destructible; [|done].
  unfold begin_.
  rewrite (remove_elements_loop_spec (Z.to_nat (current_size_ rb)));
    [|wf_facts; lia..].
  simpl. rewrite Z2Nat.id by (wf_facts; lia). done.
Qed.

(** Whatever the fuel, a [clear] that returns leaves an empty buffer with
    both cursors on the first slot of the block. *)
Lemma clear_fst fuel rb h s :
  clear fuel rb h = Ok s →
  s.1 = mk_ring_buffer (max_capacity_ rb) (buffer_ rb) (buffer_end_ rb)
          (buffer_ rb) (buffer_ rb) 0.
Proof.
  unfold clear. destruct (remove_elements fuel rb h); simpl; [|done..].
  by intros [= <-].
Qed.

Lemma clear_wf fuel rb h s :
  wf rb → clear fuel rb h = Ok s → wf s.1 ∧ same_block rb s.1.
Proof.
  intros Hwf Hc. rewrite (clear_fst _ _ _ _ Hc).
  unfold same_block. wf_facts. simpl. lia.
Qed.

Lemma run_call_wf fuel (c : call ValueType) s s' :
  wf s.1 → run_call fuel c s = Ok s' → wf s'.1 ∧ same_block s.1 s'.1.
Proof.
  intros Hwf. destruct c; simpl.
  - intros [= <-]. rewrite push_back_fst. by apply add_back_uninitialized_element_wf.
  - intros [= <-]. rewrite emplace_back_eq, push_back_fst.
    by apply add_back_uninitialized_element_wf.
  - intros [= <-]. rewrite push_front_fst. by apply add_front_uninitialized_element_wf.
  - intros [= <-]. rewrite emplace_front_eq, push_front_fst.
    by apply add_front_uninitialized_element_wf.
  - intros [= <-]. by apply pop_front_wf.
  - intros [= <-]. by apply pop_back_wf.
  - by apply clear_wf.
Qed.

Lemma run_calls_wf fuel (cs : list (call ValueType)) : ∀ s s',
  wf s.1 → run_calls fuel cs s = Ok s' → wf s'.1 ∧ same_block s.1 s'.1.
Proof.
  induction cs as [|c cs IH]; intros s s' Hwf; simpl.
  - intros [= <-]. by unfold same_block.
  - destruct (run_call fuel c s) as [s1| | |] eqn:Hc; simpl; [|done..].
    intros Hcs. destruct (run_call_wf _ _ _ _ Hwf Hc) as [Hwf1 Hb1].
    destruct (IH _ _ Hwf1 Hcs) as [Hwf' Hb']. split; [done|].
    unfold same_block in *. intuition congruence.
Qed.

(** With fuel for one pass over the block, every sequence of calls returns. *)
Lemma run_calls_total fuel (cs : list (call ValueType)) : ∀ s,
  wf s.1 → (Z.to_nat (max_capacity_ s.1) < fuel)%nat →
  ∃ s', run_calls fuel cs s = Ok s'.
Proof.
  induction cs as [|c cs IH]; intros s Hwf Hfuel; simpl; [by eexists|].
  assert (∃ s1, run_call fuel c s = Ok s1) as [s1 Hc].
  { destruct c; simpl; try by eexists.
    rewrite clear_spec; [by eexists|done|wf_facts; lia]. }
  rewrite Hc. simpl.
  destruct (run_call_wf _ _ _ _ Hwf Hc) as [Hwf1 (Hcap & _)].
  apply IH; [done|]. by rewrite Hcap.
Qed.

(** ** Construction *)

Lemma ring_buffer_ctor_Ok max_capacity h s :
  ring_buffer_ctor max_capacity h = Ok s →
  max_capacity ≠ 0 ∧ max_capacity < SIZE_MAX / 2 ∧
  brk h + max_capacity ≤ limit h ∧ brk h ≠ 0 ∧
  s = (mk_ring_buffer max_capacity (brk h) (brk h + (max_capacity - 1)) (brk h) (brk h) 0,
       mk_heap (cells h) (brk h + max_capacity) (limit h) (destroyed h) (released h)).
Proof.
  unfold ring_buffer_ctor, allocate, nullptr.
  destruct (Z.eqb_spec max_capacity 0); [done|].
  rewrite Z.geb_leb. destruct (Z.leb_spec (SIZE_MAX / 2) max_capacity); [done|].
  destruct (Z.eqb_spec sizeof_ValueType 0); [done|].
  destruct (Z.leb_spec (brk h + max_capacity) (limit h)); step_bind; [|done].
  destruct (Z.eqb_spec 0 (brk h)); [done|].
  intros [= <-]. repeat split; done || lia.
Qed.

Lemma ring_buffer_ctor_accepts max_capacity h :
  1 ≤ max_capacity < SIZE_MAX / 2 → sizeof_ValueType ≠ 0 →
  1 ≤ brk h → brk h + max_capacity ≤ limit h →
  ring_buffer_ctor max_capacity h
  = Ok (mk_ring_buffer max_capacity (brk h) (brk h + (max_capacity - 1)) (brk h) (brk h) 0,
        mk_heap (cells h) (brk h + max_capacity) (limit h) (destroyed h) (released h)).
Proof.
  intros Hcap Hsz Hbrk Hlim. unfold ring_buffer_ctor, allocate, nullptr.
  destruct (Z.eqb_spec max_capacity 0); [lia|].
  rewrite Z.geb_leb. destruct (Z.leb_spec (SIZE_MAX / 2) max_capacity); [lia|].
  destruct (Z.eqb_spec sizeof_ValueType 0); [done|].
  destruct (Z.leb_spec (brk h + max_capacity) (limit h)); [|lia]. step_bind.
  destruct (Z.eqb_spec 0 (brk h)); [lia|done].
Qed.

Lemma ring_buffer_ctor_wf max_capacity h s :
  0 ≤ max_capacity → heap_ok h →
  ring_buffer_ctor max_capacity h = Ok s →
  wf s.1 ∧ owns s.2 s.1 ∧ heap_ok s.2 ∧ brk h = buffer_ s.1.
Proof.
  intros Hcap Hh Hc.
  destruct (ring_buffer_ctor_Ok _ _ _ Hc) as (? & ? & ? & ? & ->).
  unfold heap_ok in *. wf_facts. simpl. lia.
Qed.

(** ** The size bound *)

(** C7: at every observable point, that is after construction and after
    every sequence of push_back, emplace_back, push_front, emplace_front,
    pop_front, pop_back and clear calls, [0 <= size() <= capacity()]; and
    with fuel for one pass over the block every such sequence returns. *)
Theorem size_within_capacity max_capacity h s0 :
  0 ≤ max_capacity → heap_ok h →
  ring_buffer_ctor max_capacity h = Ok s0 →
  0 ≤ size s0.1 ≤ capacity s0.1 ∧
  ∀ (cs : list (call ValueType)) fuel,
    (∀ s, run_calls fuel cs s0 = Ok s → 0 ≤ size s.1 ≤ capacity s.1) ∧
    ((Z.to_nat max_capacity < fuel)%nat → ∃ s, run_calls fuel cs s0 = Ok s).
Proof.
  intros Hcap Hh Hc.
  destruct (ring_buffer_ctor_wf _ _ _ Hcap Hh Hc) as (Hwf & _).
  split; [wf_facts; lia|]. intros cs fuel. split.
  - intros s Hs. destruct (run_calls_wf _ _ _ _ Hwf Hs) as [Hwf' _].
    wf_facts. lia.
  - intros Hfuel. apply run_calls_total; [done|].
    destruct (ring_buffer_ctor_Ok _ _ _ Hc) as (_ & _ & _ & _ & ->). done.
Qed.

(** ** Checked access *)

Lemma at_out_of_range rb idx :
  size rb ≤ idx → at_ rb idx = Throw (out_of_bounds "at").
Proof.
  intros Hidx. unfold at_, assert_idx, size in *.
  rewrite Z.geb_leb. by destruct (Z.leb_spec (current_size_ rb) idx); [|lia].
Qed.

Lemma at_in_range rb idx :
  idx < size rb → at_ rb idx = Ok (unchecked_ptr_from_idx rb idx).
Proof.
  intros Hidx. unfold at_, assert_idx, size in *.
  rewrite Z.geb_leb. by destruct (Z.leb_spec (current_size_ rb) idx); [lia|].
Qed.

(** C2: [at(index)] throws the bounds error whenever [index >= size()], in
    particular for every index right after construction; [front()] and
    [back()] are [at(0)] and [at(size - 1)] ([at(0)] on an empty buffer) and
    throw the same error on an empty buffer; and for [index < size()] the
    reference returned by [at(index)] is to the slot
    [(begin cursor offset + index) mod capacity] of the block. *)
Theorem at_bounds rb :
  (∀ idx, size rb ≤ idx → at_ rb idx = Throw (out_of_bounds "at")) ∧
  (∀ max_capacity h h' idx,
     ring_buffer_ctor max_capacity h = Ok (rb, h') → 0 ≤ idx →
     at_ rb idx = Throw (out_of_bounds "at")) ∧
  front rb = at_ rb 0 ∧
  (size rb = 0 →
     back rb = at_ rb 0 ∧
     front rb = Throw (out_of_bounds "at") ∧ back rb = Throw (out_of_bounds "at")) ∧
  (wf rb →
     (0 < size rb → back rb = at_ rb (size rb - 1)) ∧
     ∀ idx, 0 ≤ idx < size rb →
       at_ rb idx
       = Ok (buffer_ rb + (begin_ptr_ rb - buffer_ rb + idx) mod max_capacity_ rb)).
Proof.
  split; [apply at_out_of_range|]. split; [|split; [done|split]].
  - intros max_capacity h h' idx Hc Hidx.
    destruct (ring_buffer_ctor_Ok _ _ _ Hc) as (_ & _ & _ & _ & [= -> _]).
    by apply at_out_of_range.
  - intros Hz. unfold back, front, size in *. rewrite Hz. simpl.
    split; [done|]. split; apply at_out_of_range; unfold size; lia.
  - intros Hwf. split.
    + intros Hpos. unfold back, size in *.
      destruct (Z.eqb_spec (current_size_ rb) 0); [lia|].
      rewrite wrap_small; [done|]. wf_facts. lia.
    + intros idx Hidx. rewrite at_in_range by lia.
      rewrite unchecked_ptr_from_idx_mod; [done..|]. wf_facts. lia.
Qed.

(** ** Iterator dereference *)

Lemma operator_star_out_of_range rb it :
  size rb ≤ idx_ it → operator_star rb it = Throw (out_of_bounds "at").
Proof. apply at_out_of_range. Qed.

(** [operator->] returns a pointer into the block for every index. *)
Lemma operator_arrow_in_block rb it :
  wf rb → buffer_ rb ≤ operator_arrow rb it ≤ buffer_end_ rb.
Proof. apply unchecked_ptr_from_idx_in_block. Qed.

(** ** Destruction *)

(** The destructor runs no element destructor. *)
Lemma ring_buffer_dtor_destroyed rb h :
  destroyed (ring_buffer_dtor rb h) = destroyed h ∧
  cells (ring_buffer_dtor rb h) = cells h ∧
  released (ring_buffer_dtor rb h) = (buffer_ rb, max_capacity_ rb) :: released h.
Proof. done. Qed.

(** ** The cursor relation *)

Lemma walk_right_window rb :
  wf rb →
  walk_right rb (size rb - 1) (begin_ptr_ rb)
  = if size rb <=? 1 then begin_ptr_ rb
    else if begin_ptr_ rb + (size rb - 1) <=? buffer_end_ rb
    then begin_ptr_ rb + (size rb - 1)
    else begin_ptr_ rb + (size rb - 1) - max_capacity_ rb.
Proof.
  intros Hwf. destruct (Z.leb_spec (size rb) 1) as [Hle|Hgt].
  - destruct (Z.eq_dec (size rb) 1) as [->|Hne].
    + unfold walk_right. done.
    + apply walk_right_nonpos. lia.
  - rewrite walk_right_mod by (wf_facts; lia).
    rewrite mod_window by (wf_facts; lia).
    wf_facts. split_tests; lia.
Qed.

Ltac linked_facts Hwf Hwf' :=
  unfold cursors_linked in *;
  rewrite (walk_right_window _ Hwf') ;
  match goal with
  | H : walk_right _ _ _ = _ |- _ => rewrite (walk_right_window _ Hwf) in H
  | _ => idtac
  end;
  unfold advance_ptr_right, advance_ptr_left in *;
  wf_facts; simpl in *.

Lemma add_back_uninitialized_element_linked rb h :
  wf rb → cursors_linked rb → cursors_linked (add_back_uninitialized_element rb h).1.
Proof.
  intros Hwf Hl.
  destruct (add_back_uninitialized_element_wf rb h Hwf) as [Hwf' _]. revert Hwf'.
  destruct (Z.lt_ge_cases (current_size_ rb) (max_capacity_ rb)) as [Hlt|Hge].
  - rewrite add_back_uninitialized_element_grow by done. intros Hwf'.
    linked_facts Hwf Hwf'. revert Hl. split_tests; lia.
  - rewrite add_back_uninitialized_element_full by (wf_facts; lia). intros Hwf'.
    linked_facts Hwf Hwf'. revert Hl. split_tests; lia.
Qed.

Lemma add_front_uninitialized_element_linked rb h :
  wf rb → cursors_linked rb → cursors_linked (add_front_uninitialized_element rb h).1.
Proof.
  intros Hwf Hl.
  destruct (add_front_uninitialized_element_wf rb h Hwf) as [Hwf' _]. revert Hwf'.
  destruct (Z.lt_ge_cases (current_size_ rb) (max_capacity_ rb)) as [Hlt|Hge].
  - rewrite add_front_uninitialized_element_grow by done. intros Hwf'.
    linked_facts Hwf Hwf'. revert Hl. split_tests; lia.
  - rewrite add_front_uninitialized_element_full by (wf_facts; lia). intros Hwf'.
    linked_facts Hwf Hwf'. revert Hl. split_tests; lia.
Qed.

Lemma pop_front_linked rb h :
  wf rb → cursors_linked rb → size rb ≠ 1 → cursors_linked (pop_front rb h).2.1.
Proof.
  intros Hwf Hl Hone.
  destruct (pop_front_wf rb h Hwf) as [Hwf' _]. revert Hwf'.
  destruct (Z.eq_dec (current_size_ rb) 0) as [Hz|Hnz].
  - by rewrite (proj1 (pop_empty rb h Hz)).
  - rewrite pop_front_nonempty by done. intros Hwf'.
    linked_facts Hwf Hwf'. revert Hl. split_tests; lia.
Qed.

Lemma pop_back_linked rb h :
  wf rb → cursors_linked rb → size rb ≠ 1 → cursors_linked (pop_back rb h).2.1.
Proof.
  intros Hwf Hl Hone.
  destruct (pop_back_wf rb h Hwf) as [Hwf' _]. revert Hwf'.
  destruct (Z.eq_dec (current_size_ rb) 0) as [Hz|Hnz].
  - by rewrite (proj2 (pop_empty rb h Hz)).
  - rewrite pop_back_nonempty by done. intros Hwf'.
    linked_facts Hwf Hwf'. revert Hl. split_tests; lia.
Qed.

Lemma run_call_linked fuel (c : call ValueType) s s' :
  wf s.1 → cursors_linked s.1 → removes_last c s.1 = false →
  run_call fuel c s = Ok s' → cursors_linked s'.1.
Proof.
  intros Hwf Hl Hkeep. destruct c; simpl in *.
  - intros [= <-]. rewrite push_back_fst.
    by apply add_back_uninitialized_element_linked.
  - intros [= <-]. rewrite emplace_back_eq, push_back_fst.
    by apply add_back_uninitialized_element_linked.
  - intros [= <-]. rewrite push_front_fst.
    by apply add_front_uninitialized_element_linked.
  - intros [= <-]. rewrite emplace_front_eq, push_front_fst.
    by apply add_front_uninitialized_element_linked.
  - intros [= <-]. apply pop_front_linked; [done..|]. by apply Z.eqb_neq.
  - intros [= <-]. apply pop_back_linked; [done..|]. by apply Z.eqb_neq.
  - intros Hc. rewrite (clear_fst _ _ _ _ Hc).
    unfold cursors_linked. by rewrite walk_right_nonpos.
Qed.

Lemma ring_buffer_ctor_linked max_capacity h s :
  ring_buffer_ctor max_capacity h = Ok s → cursors_linked s.1.
Proof.
  intros Hc. destruct (ring_buffer_ctor_Ok _ _ _ Hc) as (_ & _ & _ & _ & ->).
  unfold cursors_linked. by rewrite walk_right_nonpos.
Qed.

Lemma reaches_linked fuel s s' :
  reaches fuel s s' → wf s.1 → cursors_linked s.1 → wf s'.1 ∧ cursors_linked s'.1.
Proof.
  induction 1 as [s|s c s1 s2 Hkeep Hc _ IH]; intros Hwf Hl; [done|].
  destruct (run_call_wf _ _ _ _ Hwf Hc) as [Hwf1 _].
  apply IH; [done|]. exact (run_call_linked _ _ _ _ Hwf Hl Hkeep Hc).
Qed.

Lemma reaches_same_block fuel s s' :
  reaches fuel s s' → wf s.1 → same_block s.1 s'.1.
Proof.
  induction 1 as [s|s c s1 s2 Hkeep Hc _ IH]; intros Hwf; [done|].
  destruct (run_call_wf _ _ _ _ Hwf Hc) as [Hwf1 Hb1].
  specialize (IH Hwf1). unfold same_block in *. intuition congruence.
Qed.

(** C6, amended: in every state reached from construction by push_back,
    emplace_back, push_front, emplace_front and clear calls, and by
    pop_front and pop_back calls other than one that removes the only
    element, the block is the one the constructor allocated, with the
    requested capacity, both cursors are on slots of the block, and when the
    buffer is not empty the offset of the end cursor in the block is
    [(offset of the begin cursor + size - 1) mod capacity], which is the
    slot reached by walking [size - 1] slots rightward (with wraparound)
    from the begin cursor; the cursors coincide when the buffer is empty. *)
Theorem cursors_linked_reachable max_capacity h s0 fuel s :
  0 ≤ max_capacity → heap_ok h →
  ring_buffer_ctor max_capacity h = Ok s0 →
  reaches fuel s0 s →
  capacity s.1 = max_capacity ∧ buffer_ s.1 = brk h ∧
  buffer_ s.1 ≤ begin_ptr_ s.1 < buffer_ s.1 + max_capacity ∧
  buffer_ s.1 ≤ end_ptr_ s.1 < buffer_ s.1 + max_capacity ∧
  0 ≤ size s.1 ≤ max_capacity ∧
  (1 ≤ size s.1 →
     end_ptr_ s.1 - buffer_ s.1
     = (begin_ptr_ s.1 - buffer_ s.1 + (size s.1 - 1)) mod max_capacity) ∧
  (size s.1 = 0 → begin_ptr_ s.1 = end_ptr_ s.1) ∧
  walk_right s.1 (size s.1 - 1) (begin_ptr_ s.1) = end_ptr_ s.1.
Proof.
  intros Hcap Hh Hc Hr.
  destruct (ring_buffer_ctor_wf _ _ _ Hcap Hh Hc) as (Hwf & _ & _ & Hbrk).
  destruct (reaches_linked _ _ _ Hr Hwf (ring_buffer_ctor_linked _ _ _ Hc)) as [Hwf' Hl].
  destruct (reaches_same_block _ _ _ Hr Hwf) as (Hbc & Hbb & _).
  assert (max_capacity_ s0.1 = max_capacity) as Hm
    by (by destruct (ring_buffer_ctor_Ok _ _ _ Hc) as (_ & _ & _ & _ & ->)).
  unfold capacity. rewrite Hm in Hbc.
  split; [done|]. split; [congruence|].
  split; [wf_facts; lia|]. split; [wf_facts; lia|]. split; [wf_facts; lia|].
  split; [|split; [|done]].
  - intros Hpos. unfold cursors_linked in Hl.
    rewrite walk_right_mod in Hl by (wf_facts; lia). rewrite Hbc in Hl. lia.
  - intros Hz. unfold cursors_linked in Hl.
    by rewrite Hz, walk_right_nonpos in Hl.
Qed.

(** ** Logical contents *)

Lemma slot_inj rb i j :
  wf rb → 0 ≤ i < max_capacity_ rb → 0 ≤ j < max_capacity_ rb →
  unchecked_ptr_from_idx rb i = unchecked_ptr_from_idx rb j → i = j.
Proof.
  intros Hwf Hi Hj. rewrite !unchecked_ptr_from_idx_window by (done || lia).
  wf_facts. split_tests; lia.
Qed.

Lemma element_in_range rb h idx :
  idx < size rb → element rb h idx = cells h !! unchecked_ptr_from_idx rb idx.
Proof. intros Hidx. unfold element. by rewrite at_in_range. Qed.

Lemma contents_ext rb rb' h h' n :
  size rb = n → size rb' = n →
  (∀ idx, 0 ≤ idx < n → element rb h idx = element rb' h' idx) →
  contents rb h = contents rb' h'.
Proof.
  intros Hn Hn' Hext. unfold contents. rewrite Hn, Hn'.
  apply Forall_fmap_ext_1, Forall_seqZ. intros idx Hidx. apply Hext. lia.
Qed.

Lemma seqZ_snoc (n : Z) : 0 ≤ n → seqZ 0 (n + 1) = seqZ 0 n ++ [n].
Proof. intros Hn. by rewrite seqZ_app by lia. Qed.

(** [push_back] into a buffer that is not full. *)
Lemma push_back_grow v rb h :
  wf rb → cursors_linked rb → size rb < max_capacity_ rb →
  push_back v rb h
  = (mk_ring_buffer (max_capacity_ rb) (buffer_ rb) (buffer_end_ rb) (begin_ptr_ rb)
       (unchecked_ptr_from_idx rb (size rb)) (size rb + 1),
     store (unchecked_ptr_from_idx rb (size rb)) v h).
Proof.
  intros Hwf Hl Hlt. unfold push_back.
  rewrite add_back_uninitialized_element_grow by done. simpl.
  assert ((if 0 <? current_size_ rb then advance_ptr_right rb (end_ptr_ rb)
           else end_ptr_ rb) = unchecked_ptr_from_idx rb (size rb)) as ->; [|done].
  rewrite unchecked_ptr_from_idx_window by (wf_facts; lia).
  unfold cursors_linked in Hl. rewrite walk_right_window in Hl by done.
  unfold advance_ptr_right. wf_facts. revert Hl. split_tests; lia.
Qed.

(** [push_back] into a full buffer. *)
Lemma push_back_full v rb h :
  wf rb → cursors_linked rb → size rb = max_capacity_ rb →
  push_back v rb h
  = (mk_ring_buffer (max_capacity_ rb) (buffer_ rb) (buffer_end_ rb)
       (advance_ptr_right rb (begin_ptr_ rb)) (begin_ptr_ rb) (size rb),
     store (begin_ptr_ rb) v (if is_destructible then destroy (begin_ptr_ rb) h else h)).
Proof.
  intros Hwf Hl Hfull. unfold push_back.
  rewrite add_back_uninitialized_element_full by done. simpl.
  assert (advance_ptr_right rb (end_ptr_ rb) = begin_ptr_ rb) as ->; [|done].
  unfold cursors_linked in Hl. rewrite walk_right_window in Hl by done.
  unfold advance_ptr_right. wf_facts. revert Hl. split_tests; lia.
Qed.

Lemma contents_push_back_grow v rb h :
  wf rb → cursors_linked rb → size rb < max_capacity_ rb →
  contents (push_back v rb h).1 (push_back v rb h).2 = contents rb h ++ [Some v].
Proof.
  intros Hwf Hl Hlt. rewrite push_back_grow by done. simpl.
  assert (0 ≤ size rb) as Hn by (wf_facts; lia).
  unfold contents at 1. simpl. rewrite seqZ_snoc, fmap_app by done. f_equal.
  - apply Forall_fmap_ext_1, Forall_seqZ. intros idx Hidx.
    rewrite !element_in_range by (unfold size in *; simpl; lia).
    unfold store. simpl. rewrite lookup_insert_ne; [done|].
    intros Heq. apply (slot_inj rb) in Heq; wf_facts; lia.
  - simpl. rewrite element_in_range by (unfold size; simpl; lia).
    unfold store. simpl. by rewrite lookup_insert_eq.
Qed.

(** The slots behind a begin cursor that moved one step right. *)
Lemma unchecked_ptr_from_idx_shift rb e n idx :
  wf rb → 0 ≤ idx < max_capacity_ rb →
  unchecked_ptr_from_idx
    (mk_ring_buffer (max_capacity_ rb) (buffer_ rb) (buffer_end_ rb)
       (advance_ptr_right rb (begin_ptr_ rb)) e n) idx
  = unchecked_ptr_from_idx rb (if idx + 1 <? max_capacity_ rb then idx + 1 else 0).
Proof.
  intros Hwf Hidx.
  pose proof (advance_ptr_right_in_block rb (begin_ptr_ rb) Hwf) as Hb.
  unfold unchecked_ptr_from_idx. simpl.
  rewrite !wrap_small by (wf_facts; split_tests; lia).
  rewrite !mod_window by (wf_facts; split_tests; lia).
  revert Hb. unfold advance_ptr_right. wf_facts. split_tests; lia.
Qed.

Lemma contents_push_back_full v rb h :
  wf rb → cursors_linked rb → size rb = max_capacity_ rb →
  contents (push_back v rb h).1 (push_back v rb h).2 = tail (contents rb h) ++ [Some v].
Proof.
  intros Hwf Hl Hfull. rewrite push_back_full by done. simpl.
  assert (1 ≤ size rb) as Hn by (wf_facts; lia).
  set (rb' := mk_ring_buffer _ _ _ _ _ _). set (h' := store _ _ _).
  unfold contents.
  replace (size rb') with ((size rb - 1) + 1) by (subst rb'; unfold size; simpl; lia).
  rewrite seqZ_snoc, fmap_app by lia.
  rewrite (seqZ_cons 0 (size rb)) by lia. simpl.
  replace (Z.succ 0) with (1 + 0) by lia. rewrite <- fmap_add_seqZ, <- list_fmap_compose.
  replace (Z.pred (size rb)) with (size rb - 1) by lia. subst rb' h'. f_equal.
  - apply Forall_fmap_ext_1, Forall_seqZ. intros idx Hidx. simpl.
    rewrite !element_in_range by (unfold size in *; simpl; lia).
    rewrite unchecked_ptr_from_idx_shift by (done || (unfold size in *; lia)).
    destruct (Z.ltb_spec (idx + 1) (max_capacity_ rb)); [|unfold size in *; lia].
    replace (1 + idx) with (idx + 1) by lia.
    assert (begin_ptr_ rb ≠ unchecked_ptr_from_idx rb (idx + 1)) as Hne.
    { rewrite unchecked_ptr_from_idx_window by (done || lia).
      wf_facts. split_tests; lia. }
    unfold store. simpl. rewrite lookup_insert_ne by done.
    destruct is_destructible; [|done]. simpl. by rewrite lookup_delete_ne.
  - rewrite element_in_range by (unfold size; simpl; lia).
    rewrite unchecked_ptr_from_idx_shift by (done || (unfold size in *; lia)).
    destruct (Z.ltb_spec (size rb - 1 + 1) (max_capacity_ rb)); [lia|].
    assert (unchecked_ptr_from_idx rb 0 = begin_ptr_ rb) as ->.
    { rewrite unchecked_ptr_from_idx_window by (wf_facts; lia).
      wf_facts. split_tests; lia. }
    unfold store. simpl. by rewrite lookup_insert_eq.
Qed.

(** [push_back] keeps the shape and the cursor relation. *)
Lemma push_back_inv v rb h :
  wf rb → cursors_linked rb →
  wf (push_back v rb h).1 ∧ cursors_linked (push_back v rb h).1 ∧
  same_block rb (push_back v rb h).1.
Proof.
  intros Hwf Hl. rewrite push_back_fst.
  destruct (add_back_uninitialized_element_wf rb h Hwf) as [? ?].
  split; [done|]. split; [|done]. by apply add_back_uninitialized_element_linked.
Qed.

(** ** What a call changes in the heap *)

Lemma frame_refl rb h : frame rb h h.
Proof. by unfold frame. Qed.

Lemma frame_trans rb h1 h2 h3 : frame rb h1 h2 → frame rb h2 h3 → frame rb h1 h3.
Proof.
  intros (? & ? & ? & H12) (? & ? & ? & H23). unfold frame.
  repeat split; try congruence. intros p Hp. by rewrite H23, H12.
Qed.

Lemma frame_same_block rb rb' h h' : same_block rb rb' → frame rb' h h' → frame rb h h'.
Proof. intros (_ & Hb & He). unfold frame. by rewrite Hb, He. Qed.

Lemma store_frame rb p v h :
  buffer_ rb ≤ p ≤ buffer_end_ rb → frame rb h (store p v h).
Proof.
  intros Hp. unfold frame, store. simpl. repeat split.
  intros q Hq. apply lookup_insert_ne. lia.
Qed.

Lemma destroy_frame rb p h :
  buffer_ rb ≤ p ≤ buffer_end_ rb → frame rb h (destroy p h).
Proof.
  intros Hp. unfold frame, destroy. simpl. repeat split.
  intros q Hq. apply lookup_delete_ne. lia.
Qed.

Lemma remove_advance_frame rb p h :
  buffer_ rb ≤ p ≤ buffer_end_ rb →
  frame rb h (if is_destructible then destroy p h else h).
Proof. intros Hp. destruct is_destructible; [by apply destroy_frame|apply frame_refl]. Qed.

Lemma push_back_frame v rb h : wf rb → frame rb h (push_back v rb h).2.
Proof.
  intros Hwf. unfold push_back.
  destruct (add_back_uninitialized_element_wf rb h Hwf) as [Hwf' Hb]. revert Hwf' Hb.
  destruct (Z.lt_ge_cases (current_size_ rb) (max_capacity_ rb)) as [Hlt|Hge].
  - rewrite add_back_uninitialized_element_grow by done. simpl. intros Hwf' Hb.
    apply store_frame. wf_facts. simpl in *. lia.
  - rewrite add_back_uninitialized_element_full by (wf_facts; lia). simpl. intros Hwf' Hb.
    eapply frame_trans; [apply remove_advance_frame|apply store_frame];
      wf_facts; simpl in *; lia.
Qed.

Lemma push_front_frame v rb h : wf rb → frame rb h (push_front v rb h).2.
Proof.
  intros Hwf. unfold push_front.
  destruct (add_front_uninitialized_element_wf rb h Hwf) as [Hwf' Hb]. revert Hwf' Hb.
  destruct (Z.lt_ge_cases (current_size_ rb) (max_capacity_ rb)) as [Hlt|Hge].
  - rewrite add_front_uninitialized_element_grow by done. simpl. intros Hwf' Hb.
    apply store_frame. wf_facts. simpl in *. lia.
  - rewrite add_front_uninitialized_element_full by (wf_facts; lia). simpl. intros Hwf' Hb.
    eapply frame_trans; [apply remove_advance_frame|apply store_frame];
      wf_facts; simpl in *; lia.
Qed.

Lemma pop_front_frame rb h : wf rb → frame rb h (pop_front rb h).2.2.
Proof.
  intros Hwf. destruct (Z.eq_dec (current_size_ rb) 0) as [Hz|Hnz].
  - rewrite (proj1 (pop_empty rb h Hz)). apply frame_refl.
  - rewrite pop_front_nonempty by done. simpl. apply remove_advance_frame.
    wf_facts. lia.
Qed.

Lemma pop_back_frame rb h : wf rb → frame rb h (pop_back rb h).2.2.
Proof.
  intros Hwf. destruct (Z.eq_dec (current_size_ rb) 0) as [Hz|Hnz].
  - rewrite (proj2 (pop_empty rb h Hz)). apply frame_refl.
  - rewrite pop_back_nonempty by done. simpl. apply remove_advance_frame.
    wf_facts. lia.
Qed.

Lemma remove_elements_loop_frame fuel rb : ∀ it h h',
  wf rb → remove_elements_loop fuel rb it h = Ok h' → frame rb h h'.
Proof.
  induction fuel as [|fuel IH]; intros it h h' Hwf; simpl; [done|].
  destruct (operator_ne it (end_ rb)).
  - intros Hloop. eapply frame_trans; [|by eapply IH].
    apply destroy_frame. by apply operator_arrow_in_block.
  - intros [= <-]. apply frame_refl.
Qed.

Lemma clear_frame fuel rb h s : wf rb → clear fuel rb h = Ok s → frame rb h s.2.
Proof.
  intros Hwf. unfold clear, remove_elements.
  destruct is_destructible.
  - destruct (remove_elements_loop fuel rb (begin_ rb) h) as [h'| | |] eqn:Hloop;
      step_bind; [|done..].
    intros [= <-]. simpl. by eapply remove_elements_loop_frame.
  - step_bind. intros [= <-]. apply frame_refl.
Qed.

Lemma run_call_frame fuel (c : call ValueType) s s' :
  wf s.1 → run_call fuel c s = Ok s' → frame s.1 s.2 s'.2.
Proof.
  intros Hwf. destruct c; simpl.
  - intros [= <-]. by apply push_back_frame.
  - intros [= <-]. rewrite emplace_back_eq. by apply push_back_frame.
  - intros [= <-]. by apply push_front_frame.
  - intros [= <-]. rewrite emplace_front_eq. by apply push_front_frame.
  - intros [= <-]. by apply pop_front_frame.
  - intros [= <-]. by apply pop_back_frame.
  - by apply clear_frame.
Qed.

Lemma run_calls_frame fuel (cs : list (call ValueType)) : ∀ s s',
  wf s.1 → run_calls fuel cs s = Ok s' → frame s.1 s.2 s'.2.
Proof.
  induction cs as [|c cs IH]; intros s s' Hwf; simpl.
  - intros [= <-]. apply frame_refl.
  - destruct (run_call fuel c s) as [s1| | |] eqn:Hc; step_bind; [|done..].
    intros Hcs. destruct (run_call_wf _ _ _ _ Hwf Hc) as [Hwf1 Hb1].
    eapply frame_trans; [by eapply run_call_frame|].
    eapply frame_same_block; [done|]. by apply IH.
Qed.

(** The contents of a container are read from its own block. *)
Lemma element_frame rb other h h' idx :
  wf rb → frame other h h' →
  buffer_end_ other < buffer_ rb ∨ buffer_end_ rb < buffer_ other →
  element rb h' idx = element rb h idx.
Proof.
  intros Hwf (_ & _ & _ & Hcells) Hdisj. unfold element.
  destruct (at_ rb idx) as [p| | |] eqn:Hat; [|done..].
  apply Hcells. unfold at_ in Hat. destruct (assert_idx rb idx "at"); [|done..].
  injection Hat as <-.
  pose proof (unchecked_ptr_from_idx_in_block rb idx Hwf). lia.
Qed.

Lemma contents_frame rb other h h' :
  wf rb → frame other h h' →
  buffer_end_ other < buffer_ rb ∨ buffer_end_ rb < buffer_ other →
  contents rb h' = contents rb h.
Proof.
  intros Hwf Hf Hdisj. unfold contents.
  apply Forall_fmap_ext_1, Forall_forall. intros idx _. by eapply element_frame.
Qed.

(** ** Copy construction *)

Lemma std_copy_spec (k : nat) : ∀ fuel src c idx dst h,
  wf src → wf dst → cursors_linked dst →
  buffer_end_ src < buffer_ dst →
  max_capacity_ dst = max_capacity_ src →
  0 ≤ idx → size dst = idx → idx + Z.of_nat k = size src →
  (∀ j, idx ≤ j < size src → is_Some (element src h j)) →
  (k < fuel)%nat →
  ∃ dst' h',
    std_copy fuel src (mk_Iterator c idx) (cend src) dst h = Ok (dst', h') ∧
    wf dst' ∧ same_block dst dst' ∧ frame dst h h' ∧
    destroyed h' = destroyed h ∧
    contents dst' h' = contents dst h ++ (element src h <$> seqZ idx (Z.of_nat k)).
Proof.
  induction k as [|k IH];
    intros fuel src c idx dst h Hsrc Hdst Hl Hdisj Hcap Hidx Hsz Hk Hlive Hfuel;
    (destruct fuel as [|fuel]; [lia|]); simpl;
    unfold operator_ne, operator_eq, cend; simpl.
  - destruct (Z.eqb_spec idx (current_size_ src)); [|unfold size in *; lia]. simpl.
    exists dst, h. rewrite app_nil_r.
    split_and!; done || apply frame_refl.
  - destruct (Z.eqb_spec idx (current_size_ src)); [unfold size in *; lia|]. simpl.
    unfold operator_star. simpl. rewrite at_in_range by lia. step_bind.
    destruct (Hlive idx) as [v Hv]; [lia|].
    rewrite element_in_range in Hv by lia.
    unfold load. rewrite Hv. step_bind.
    assert (size dst < max_capacity_ dst) as Hroom by (wf_facts; lia).
    pose proof (contents_push_back_grow v dst h Hdst Hl Hroom) as Hcont.
    pose proof (push_back_frame v dst h Hdst) as Hframe.
    destruct (push_back_inv v dst h Hdst Hl) as (Hdst1 & Hl1 & Hb1).
    assert (size (push_back v dst h).1 = idx + 1) as Hsz1
      by (rewrite push_back_grow by done; unfold size in *; simpl; lia).
    assert (destroyed (push_back v dst h).2 = destroyed h) as Hd1
      by (by rewrite push_back_grow by done).
    destruct (push_back v dst h) as [dst1 h1]. simpl in *.
    unfold operator_incr. simpl.
    rewrite wrap_small by (wf_facts; lia). rewrite Z.min_r by lia.
    destruct (IH fuel src c (idx + 1) dst1 h1) as (dst' & h' & Hcopy & Hwf' & Hb' & Hf' & Hd' & Hc');
      try done; try lia.
    { destruct Hb1 as (_ & -> & _). done. }
    { destruct Hb1 as (-> & _). done. }
    { intros j Hj. rewrite (element_frame src dst h h1) by (done || lia).
      apply Hlive. lia. }
    exists dst', h'. split; [done|]. split; [done|]. split.
    { unfold same_block in *. intuition congruence. }
    split.
    { eapply frame_trans; [done|]. by eapply frame_same_block. }
    split; [congruence|].
    rewrite Hc', Hcont, <- app_assoc. f_equal.
    rewrite (seqZ_cons idx) by lia. rewrite fmap_cons.
    rewrite element_in_range, Hv by lia. simpl. f_equal.
    replace (Z.pred (Z.of_nat (S k))) with (Z.of_nat k) by lia.
    replace (Z.succ idx) with (idx + 1) by lia.
    apply Forall_fmap_ext_1, Forall_forall. intros j _.
    apply (element_frame src dst); [done..|lia].
Qed.

Lemma contents_empty rb h : size rb = 0 → contents rb h = [].
Proof. intros Hz. unfold contents. by rewrite Hz. Qed.

(** C9: a copy [b] constructed from a buffer [a], whatever the position
    of the cursors of [a], has the capacity of [a] and the elements of [a]
    in the same front-to-back order, and no later sequence of push, emplace,
    pop and clear calls on [a] changes the contents of [b]. *)
Theorem copy_is_independent a h fuel :
  wf a → owns h a → live a h →
  brk h + max_capacity_ a ≤ limit h →
  (Z.to_nat (size a) < fuel)%nat →
  ∃ b h1,
    ring_buffer_copy_ctor fuel a h = Ok (b, h1) ∧
    capacity b = capacity a ∧
    size b = size a ∧
    contents b h1 = contents a h1 ∧
    contents a h1 = contents a h ∧
    ∀ fuel' (cs : list (call ValueType)) a' h2,
      run_calls fuel' cs (a, h1) = Ok (a', h2) → contents b h2 = contents b h1.
Proof.
  intros Hwf Hown Hlive Hroom Hfuel.
  unfold ring_buffer_copy_ctor, allocate, nullptr.
  destruct (Z.eqb_spec (max_capacity_ a) 0); [wf_facts; lia|].
  destruct (Z.leb_spec (brk h + max_capacity_ a) (limit h)); [|lia]. step_bind.
  destruct (Z.eqb_spec 0 (brk h)); [wf_facts; lia|].
  set (b0 := mk_ring_buffer _ _ _ _ _ _). set (h0 := mk_heap _ _ _ _ _).
  assert (wf b0) as Hwf0 by (subst b0; wf_facts; simpl; lia).
  assert (cursors_linked b0) as Hl0
    by (unfold cursors_linked; by rewrite walk_right_nonpos).
  assert (buffer_end_ a < buffer_ b0) as Hdisj by (subst b0; wf_facts; simpl; lia).
  destruct (std_copy_spec (Z.to_nat (size a)) fuel a true 0 b0 h0)
    as (b & h1 & Hcopy & Hwfb & Hb & Hf & _ & Hc); try done.
  { wf_facts. lia. }
  exists b, h1. split; [done|].
  assert (contents a h1 = contents a h) as Ha.
  { rewrite (contents_frame a b0 h0 h1) by (done || lia). done. }
  assert (size b = size a) as Hsz.
  { apply (f_equal length) in Hc. unfold contents in Hc.
    rewrite length_app, !length_fmap, !length_seqZ in Hc.
    assert (0 ≤ size b) by (wf_facts; lia). assert (0 ≤ size a) by (wf_facts; lia).
    subst b0. unfold size in *. simpl in *. lia. }
  destruct Hb as (Hbc & Hbb & Hbe).
  split_and!; try done.
  - rewrite Hc, Ha, (contents_empty b0) by done. simpl.
    rewrite Z2Nat.id by (wf_facts; lia). done.
  - intros fuel' cs a' h2 Hrun.
    apply (contents_frame b a); [done| |left; subst b0; simpl in *; lia].
    by apply (run_calls_frame fuel' cs (a, h1) (a', h2)).
Qed.

(** ** Sequences of calls *)




(** ** [push_front] into a buffer that is not full *)

Lemma unchecked_ptr_from_idx_front rb :
  wf rb → unchecked_ptr_from_idx rb 0 = begin_ptr_ rb.
Proof.
  intros Hwf. rewrite unchecked_ptr_from_idx_window by (wf_facts; lia).
  wf_facts. split_tests; lia.
Qed.



Lemma push_front_grow v rb h :
  wf rb → size rb < max_capacity_ rb →
  push_front v rb h
  = (mk_ring_buffer (max_capacity_ rb) (buffer_ rb) (buffer_end_ rb)
       (if 0 <? size rb then advance_ptr_left rb (begin_ptr_ rb) else begin_ptr_ rb)
       (end_ptr_ rb) (size rb + 1),
     store (if 0 <? size rb then advance_ptr_left rb (begin_ptr_ rb) else begin_ptr_ rb) v h).
Proof.
  intros Hwf Hlt. unfold push_front.
  by rewrite add_front_uninitialized_element_grow by done.
Qed.

Lemma contents_push_front_grow v rb h :
  wf rb → size rb < max_capacity_ rb →
  contents (push_front v rb h).1 (push_front v rb h).2 = Some v :: contents rb h.
Proof.
  intros Hwf Hlt.
  destruct (add_front_uninitialized_element_wf rb h Hwf) as [Hwf' _].
  rewrite <- (push_front_fst v) in Hwf'. revert Hwf'.
  rewrite (push_front_grow v) by done. simpl.
  set (rb' := mk_ring_buffer _ _ _ _ _ _). intros Hwf'.
  assert (0 ≤ size rb) as Hn by (wf_facts; lia).
  unfold contents.
  replace (size rb') with (size rb + 1) by done.
  rewrite (seqZ_cons 0 (size rb + 1)) by lia. rewrite fmap_cons. f_equal.
  - rewrite element_in_range by (subst rb'; unfold size in *; simpl; lia).
    rewrite unchecked_ptr_from_idx_front by done.
    unfold store. simpl. by rewrite lookup_insert_eq.
  - replace (Z.succ 0) with (1 + 0) by lia.
    rewrite <- fmap_add_seqZ, <- list_fmap_compose.
    replace (Z.pred (size rb + 1)) with (size rb) by lia.
    apply Forall_fmap_ext_1, Forall_seqZ. intros idx Hidx. simpl.
    rewrite !element_in_range by (subst rb'; unfold size in *; simpl; lia).
    assert (unchecked_ptr_from_idx rb' (1 + idx) = unchecked_ptr_from_idx rb idx) as ->.
    { rewrite !unchecked_ptr_from_idx_window
        by (done || (subst rb'; unfold size in *; simpl; lia)).
      subst rb'. simpl. unfold advance_ptr_left, size in *.
      wf_facts. split_tests; lia. }
    unfold store. simpl. apply lookup_insert_ne.
    rewrite unchecked_ptr_from_idx_window by (done || (unfold size in *; lia)).
    unfold advance_ptr_left, size in *. wf_facts. split_tests; lia.
Qed.

Lemma push_front_inv v rb h :
  wf rb → cursors_linked rb →
  wf (push_front v rb h).1 ∧ cursors_linked (push_front v rb h).1 ∧
  same_block rb (push_front v rb h).1.
Proof.
  intros Hwf Hl. rewrite push_front_fst.
  destruct (add_front_uninitialized_element_wf rb h Hwf) as [? ?].
  split; [done|]. split; [|done]. by apply add_front_uninitialized_element_linked.
Qed.

(** ** Sequences of insertions that fit *)

Lemma run_insertions fuel (cs : list (call ValueType)) : ∀ s,
  wf s.1 → cursors_linked s.1 →
  size s.1 + Z.of_nat (length cs) ≤ max_capacity_ s.1 →
  Forall (λ c, c ≠ PopFront ∧ c ≠ PopBack ∧ c ≠ Clear) cs →
  ∃ s', run_calls fuel cs s = Ok s' ∧
    wf s'.1 ∧ cursors_linked s'.1 ∧ same_block s.1 s'.1 ∧
    size s'.1 = size s.1 + Z.of_nat (length cs) ∧
    contents s'.1 s'.2 = foldl insertion (contents s.1 s.2) cs.
Proof.
  induction cs as [|c cs IH]; intros [rb h] Hwf Hl Hroom Hins; simpl in *.
  - eexists. split; [done|]. split_and!; done || (simpl; lia).
  - apply Forall_cons in Hins as [(Hc1 & Hc2 & Hc3) Hins].
    assert (size rb < max_capacity_ rb) as Hlt by lia.
    assert (∃ s1, run_call fuel c (rb, h) = Ok s1 ∧
              wf s1.1 ∧ cursors_linked s1.1 ∧ same_block rb s1.1 ∧
              size s1.1 = size rb + 1 ∧
              contents s1.1 s1.2 = insertion (contents rb h) c)
      as (s1 & Hrun1 & Hwf1 & Hl1 & Hb1 & Hsz1 & Hcont1).
    { destruct c; try done; simpl; eexists; (split; [done|]).
      - destruct (push_back_inv v rb h Hwf Hl) as (? & ? & ?).
        split_and!; try done; [|by apply contents_push_back_grow].
        rewrite push_back_grow by done. unfold size. simpl. lia.
      - destruct (push_back_inv v rb h Hwf Hl) as (? & ? & ?).
        split_and!; try done; [|by apply contents_push_back_grow].
        rewrite emplace_back_eq, push_back_grow by done. unfold size. simpl. lia.
      - destruct (push_front_inv v rb h Hwf Hl) as (? & ? & ?).
        split_and!; try done; [|by apply contents_push_front_grow].
        rewrite push_front_grow by done. unfold size. simpl. lia.
      - destruct (push_front_inv v rb h Hwf Hl) as (? & ? & ?).
        split_and!; try done; [|by apply contents_push_front_grow].
        rewrite emplace_front_eq, push_front_grow by done. unfold size. simpl. lia. }
    rewrite Hrun1. step_bind.
    destruct (IH s1 Hwf1 Hl1) as (s' & Hrun & Hwf' & Hl' & Hb' & Hsz' & Hc'); [|done|].
    { destruct Hb1 as (-> & _). lia. }
    exists s'. split; [done|]. split; [done|]. split; [done|]. split.
    { unfold same_block in *. intuition congruence. }
    split; [lia|]. by rewrite Hc', Hcont1.
Qed.

(** ** [push_back] into a full buffer, cursor by cursor *)


(** ** Rejected capacities *)

(** C5: the capacity [SIZE_MAX / 2], which the claim says is accepted,
    is rejected by the constructor with the configuration error, before any
    allocation is attempted. *)
Theorem ctor_rejects_half_of_max h :
  1 ≤ SIZE_MAX / 2 ≤ SIZE_MAX / 2 ∧
  ring_buffer_ctor (SIZE_MAX / 2) h
  = Throw (runtime_error "ring_buffer: exceeded limit std::size_t max / 2").
Proof. split; [rewrite SIZE_MAX_half; lia|done]. Qed.

(** The capacities the constructor accepts. *)
Lemma ring_buffer_ctor_accepts_iff max_capacity h :
  0 ≤ max_capacity → sizeof_ValueType ≠ 0 →
  1 ≤ brk h → brk h + max_capacity ≤ limit h →
  (∃ s, ring_buffer_ctor max_capacity h = Ok s ∧ size s.1 = 0 ∧ capacity s.1 = max_capacity)
  ↔ 1 ≤ max_capacity < SIZE_MAX / 2.
Proof.
  intros Hcap Hsz Hbrk Hlim. split.
  - intros (s & Hc & _). destruct (ring_buffer_ctor_Ok _ _ _ Hc) as (? & ? & _). lia.
  - intros Hr. eexists. by rewrite ring_buffer_ctor_accepts.
Qed.

(** ** Destructor calls *)

(** [clear] on a destructible type runs the destructor once on the slot of
    every logical position, front to back (the log is most recent first). *)
Lemma destroy_range_log rb (k : nat) : ∀ lo h,
  (destroyed (destroy_range rb lo (Z.of_nat k) h)).*1
  = reverse (unchecked_ptr_from_idx rb <$> seqZ lo (Z.of_nat k)) ++ (destroyed h).*1.
Proof.
  induction k as [|k IH]; intros lo h; [done|].
  unfold destroy_range. rewrite (seqZ_cons lo) by lia. rewrite fmap_cons, reverse_cons.
  replace (Z.pred (Z.of_nat (S k))) with (Z.of_nat k) by lia.
  simpl. fold (destroy_range rb (Z.succ lo) (Z.of_nat k)
                 (destroy (unchecked_ptr_from_idx rb lo) h)).
  rewrite IH. simpl. by rewrite <- app_assoc.
Qed.

Lemma slots_NoDup rb :
  wf rb → NoDup (unchecked_ptr_from_idx rb <$> seqZ 0 (size rb)).
Proof.
  intros Hwf. apply NoDup_fmap_2_strong; [|apply NoDup_seqZ].
  intros i j Hi Hj. apply elem_of_seqZ in Hi, Hj.
  apply slot_inj; wf_facts; lia.
Qed.

Lemma clear_log fuel rb h s :
  wf rb → is_destructible = true → (Z.to_nat (size rb) < fuel)%nat →
  clear fuel rb h = Ok s →
  (destroyed s.2).*1
  = reverse (unchecked_ptr_from_idx rb <$> seqZ 0 (size rb)) ++ (destroyed h).*1.
Proof.
  intros Hwf Hd Hfuel. rewrite clear_spec by done. rewrite Hd. intros [= <-]. simpl.
  rewrite <- (Z2Nat.id (current_size_ rb)) by (wf_facts; lia).
  rewrite destroy_range_log. unfold size. by rewrite Z2Nat.id by (wf_facts; lia).
Qed.

(** ** Removal and eviction at the back, on the logical contents *)

Lemma contents_length rb h : 0 ≤ size rb → length (contents rb h) = Z.to_nat (size rb).
Proof. intros Hn. unfold contents. by rewrite length_fmap, length_seqZ. Qed.

Lemma contents_lookup rb h (i : nat) :
  Z.of_nat i < size rb → contents rb h !! i = Some (element rb h (Z.of_nat i)).
Proof.
  intros Hi. unfold contents. rewrite list_lookup_fmap, lookup_seqZ_lt by done. done.
Qed.

Lemma live_contents rb h : 0 ≤ size rb → live rb h ↔ Forall is_Some (contents rb h).
Proof.
  intros Hn. unfold live, contents. rewrite Forall_fmap, Forall_seqZ. simpl.
  split; intros H idx Hidx; apply H; lia.
Qed.

Lemma contents_pop_front rb h :
  wf rb → 1 ≤ size rb →
  contents (pop_front rb h).2.1 (pop_front rb h).2.2 = tail (contents rb h).
Proof.
  intros Hwf Hn. rewrite pop_front_nonempty by (done || (unfold size in *; lia)). simpl.
  set (rb' := mk_ring_buffer _ _ _ _ _ _). set (h' := if is_destructible then _ else _).
  unfold contents. replace (size rb') with (size rb - 1) by done.
  rewrite (seqZ_cons 0 (size rb)) by lia. rewrite fmap_cons. simpl tail.
  replace (Z.succ 0) with (1 + 0) by lia. rewrite <- fmap_add_seqZ, <- list_fmap_compose.
  replace (Z.pred (size rb)) with (size rb - 1) by lia.
  apply Forall_fmap_ext_1, Forall_seqZ. intros idx Hidx. simpl. subst rb' h'.
  rewrite !element_in_range by (unfold size in *; simpl; lia).
  rewrite unchecked_ptr_from_idx_shift by (done || (wf_facts; lia)).
  destruct (Z.ltb_spec (idx + 1) (max_capacity_ rb)); [|wf_facts; lia].
  replace (1 + idx) with (idx + 1) by lia.
  destruct is_destructible; [|done]. simpl. apply lookup_delete_ne.
  rewrite unchecked_ptr_from_idx_window by (done || lia).
  wf_facts. split_tests; lia.
Qed.

Lemma contents_pop_back rb h :
  wf rb → cursors_linked rb → 1 ≤ size rb →
  contents (pop_back rb h).2.1 (pop_back rb h).2.2
  = take (Z.to_nat (size rb - 1)) (contents rb h).
Proof.
  intros Hwf Hl Hn. rewrite pop_back_nonempty by (done || (unfold size in *; lia)). simpl.
  set (rb' := mk_ring_buffer _ _ _ _ _ _). set (h' := if is_destructible then _ else _).
  unfold contents. replace (size rb') with (size rb - 1) by done.
  replace (seqZ 0 (size rb)) with (seqZ 0 ((size rb - 1) + 1)) by (f_equal; lia).
  rewrite seqZ_snoc, fmap_app by lia.
  rewrite take_app_length' by (rewrite length_fmap, length_seqZ; lia).
  apply Forall_fmap_ext_1, Forall_seqZ. intros idx Hidx. subst rb' h'.
  rewrite !element_in_range by (unfold size in *; simpl; lia).
  change (unchecked_ptr_from_idx (mk_ring_buffer _ _ _ _ _ _) idx)
    with (unchecked_ptr_from_idx rb idx).
  destruct is_destructible; [|done]. simpl. apply lookup_delete_ne.
  rewrite unchecked_ptr_from_idx_window by (done || (wf_facts; lia)).
  unfold cursors_linked in Hl. rewrite walk_right_window in Hl by done.
  wf_facts. revert Hl. split_tests; lia.
Qed.

(** The slots behind a begin cursor that moved one step left. *)
Lemma unchecked_ptr_from_idx_shift_left rb e n idx :
  wf rb → 0 ≤ idx < max_capacity_ rb →
  unchecked_ptr_from_idx
    (mk_ring_buffer (max_capacity_ rb) (buffer_ rb) (buffer_end_ rb)
       (advance_ptr_left rb (begin_ptr_ rb)) e n) idx
  = if idx =? 0 then advance_ptr_left rb (begin_ptr_ rb)
    else unchecked_ptr_from_idx rb (idx - 1).
Proof.
  intros Hwf Hidx.
  pose proof (advance_ptr_left_in_block rb (begin_ptr_ rb) Hwf) as Hb.
  unfold unchecked_ptr_from_idx. simpl.
  destruct (Z.eqb_spec idx 0);
    rewrite !wrap_small by (wf_facts; lia);
    rewrite !mod_window by (wf_facts; lia);
    revert Hb; unfold advance_ptr_left; wf_facts; split_tests; lia.
Qed.

(** [push_front] into a full buffer. *)
Lemma push_front_full v rb h :
  wf rb → cursors_linked rb → size rb = max_capacity_ rb →
  push_front v rb h
  = (mk_ring_buffer (max_capacity_ rb) (buffer_ rb) (buffer_end_ rb)
       (end_ptr_ rb) (advance_ptr_left rb (end_ptr_ rb)) (size rb),
     store (end_ptr_ rb) v (if is_destructible then destroy (end_ptr_ rb) h else h)).
Proof.
  intros Hwf Hl Hfull. unfold push_front.
  rewrite add_front_uninitialized_element_full by done. simpl.
  assert (advance_ptr_left rb (begin_ptr_ rb) = end_ptr_ rb) as ->; [|done].
  unfold cursors_linked in Hl. rewrite walk_right_window in Hl by done.
  unfold advance_ptr_left. wf_facts. revert Hl. split_tests; lia.
Qed.

Lemma contents_push_front_full v rb h :
  wf rb → cursors_linked rb → size rb = max_capacity_ rb →
  contents (push_front v rb h).1 (push_front v rb h).2
  = Some v :: take (Z.to_nat (size rb - 1)) (contents rb h).
Proof.
  intros Hwf Hl Hfull.
  assert (1 ≤ size rb) as Hn by (wf_facts; lia).
  assert (advance_ptr_left rb (begin_ptr_ rb) = end_ptr_ rb) as Hend.
  { unfold cursors_linked in Hl. rewrite walk_right_window in Hl by done.
    unfold advance_ptr_left. wf_facts. revert Hl. split_tests; lia. }
  rewrite push_front_full by done. simpl. rewrite <- Hend.
  set (rb' := mk_ring_buffer _ _ _ _ _ _). set (h' := store _ _ _).
  unfold contents. replace (size rb') with (size rb) by done.
  rewrite (seqZ_cons 0 (size rb)) at 1 by lia. rewrite fmap_cons. f_equal.
  - subst rb' h'. rewrite element_in_range by (unfold size in *; simpl; lia).
    rewrite unchecked_ptr_from_idx_shift_left by (done || (wf_facts; lia)). simpl.
    unfold store. simpl. by rewrite lookup_insert_eq.
  - replace (seqZ 0 (size rb)) with (seqZ 0 ((size rb - 1) + 1)) by (f_equal; lia).
    rewrite seqZ_snoc, fmap_app by lia.
    rewrite take_app_length' by (rewrite length_fmap, length_seqZ; lia).
    replace (Z.succ 0) with (1 + 0) by lia. rewrite <- fmap_add_seqZ, <- list_fmap_compose.
    replace (Z.pred (size rb)) with (size rb - 1) by lia.
    apply Forall_fmap_ext_1, Forall_seqZ. intros idx Hidx. simpl. subst rb' h'.
    rewrite !element_in_range by (unfold size in *; simpl; lia).
    rewrite unchecked_ptr_from_idx_shift_left by (done || (wf_facts; lia)).
    destruct (Z.eqb_spec (1 + idx) 0); [lia|].
    replace (1 + idx - 1) with idx by lia.
    assert (advance_ptr_left rb (begin_ptr_ rb) ≠ unchecked_ptr_from_idx rb idx) as Hne.
    { rewrite unchecked_ptr_from_idx_window by (done || (wf_facts; lia)).
      unfold advance_ptr_left. wf_facts. split_tests; lia. }
    unfold store. simpl. rewrite lookup_insert_ne by done.
    destruct is_destructible; [|done]. simpl. by rewrite lookup_delete_ne.
Qed.

(** ** The container as a bounded double-ended queue *)

(** While the cursor relation holds, every call does to the logical
    contents what [deque_call] says. *)
Lemma run_call_contents fuel (c : call ValueType) s s' :
  wf s.1 → cursors_linked s.1 →
  run_call fuel c s = Ok s' →
  contents s'.1 s'.2 = deque_call (max_capacity_ s.1) c (contents s.1 s.2).
Proof.
  destruct s as [rb h]. simpl. intros Hwf Hl.
  assert (0 ≤ size rb ≤ max_capacity_ rb) as Hn by (wf_facts; lia).
  assert (Z.of_nat (length (contents rb h)) = size rb) as Hlen
    by (rewrite contents_length by lia; lia).
  assert ((length (contents rb h) - 1)%nat = Z.to_nat (size rb - 1)) as Hpred by lia.
  destruct c; simpl; rewrite ?Hlen, ?Hpred.
  - intros [= <-]. destruct (Z.ltb_spec (size rb) (max_capacity_ rb)).
    + by apply contents_push_back_grow.
    + apply contents_push_back_full; done || lia.
  - intros [= <-]. rewrite emplace_back_eq.
    destruct (Z.ltb_spec (size rb) (max_capacity_ rb)).
    + by apply contents_push_back_grow.
    + apply contents_push_back_full; done || lia.
  - intros [= <-]. destruct (Z.ltb_spec (size rb) (max_capacity_ rb)).
    + by apply contents_push_front_grow.
    + apply contents_push_front_full; done || lia.
  - intros [= <-]. rewrite emplace_front_eq.
    destruct (Z.ltb_spec (size rb) (max_capacity_ rb)).
    + by apply contents_push_front_grow.
    + apply contents_push_front_full; done || lia.
  - intros [= <-]. destruct (Z.eq_dec (size rb) 0) as [Hz|Hnz].
    + rewrite (proj1 (pop_empty rb h Hz)). simpl. by rewrite contents_empty.
    + apply contents_pop_front; done || lia.
  - intros [= <-]. destruct (Z.eq_dec (size rb) 0) as [Hz|Hnz].
    + rewrite (proj2 (pop_empty rb h Hz)). simpl. rewrite contents_empty by done.
      by rewrite take_nil.
    + apply contents_pop_back; done || lia.
  - intros Hc. apply contents_empty. by rewrite (clear_fst _ _ _ _ Hc).
Qed.

Lemma deque_call_live cap (c : call ValueType) (l : list (option ValueType)) :
  Forall is_Some l → Forall is_Some (deque_call cap c l).
Proof.
  intros Hl. destruct c; simpl; repeat case_match;
    repeat first [apply Forall_app_2 | apply Forall_cons_2 | apply Forall_nil_2
                 | by apply Forall_take | by apply Forall_tail | by eexists
                 | by destruct l; [|eapply Forall_cons_1] | done].
Qed.

Lemma run_call_owns fuel (c : call ValueType) s s' :
  wf s.1 → owns s.2 s.1 → run_call fuel c s = Ok s' → owns s'.2 s'.1.
Proof.
  intros Hwf Hown Hc.
  destruct (run_call_wf _ _ _ _ Hwf Hc) as [_ (Hcap & Hbuf & _)].
  destruct (run_call_frame _ _ _ _ Hwf Hc) as (Hbrk & _).
  unfold owns in *. rewrite Hcap, Hbuf, Hbrk. done.
Qed.

(** Every state reached from a constructor by calls that do not remove the
    only element has the shape [wf], owns its block, keeps the cursor
    relation, and holds a live object at every logical position. *)
Lemma reaches_invariants fuel s s' :
  reaches fuel s s' →
  wf s.1 → owns s.2 s.1 → cursors_linked s.1 → live s.1 s.2 →
  wf s'.1 ∧ owns s'.2 s'.1 ∧ cursors_linked s'.1 ∧ live s'.1 s'.2.
Proof.
  induction 1 as [s|s c s1 s2 Hkeep Hc _ IH]; intros Hwf Hown Hl Hlive; [done|].
  destruct (run_call_wf _ _ _ _ Hwf Hc) as [Hwf1 _].
  apply IH; [done| | |].
  - exact (run_call_owns _ _ _ _ Hwf Hown Hc).
  - exact (run_call_linked _ _ _ _ Hwf Hl Hkeep Hc).
  - apply live_contents; [wf_facts; lia|].
    rewrite (run_call_contents _ _ _ _ Hwf Hl Hc).
    apply deque_call_live. apply live_contents; [wf_facts; lia|done].
Qed.

Lemma constructed_invariants max_capacity h s0 fuel s :
  0 ≤ max_capacity → heap_ok h →
  ring_buffer_ctor max_capacity h = Ok s0 →
  reaches fuel s0 s →
  wf s.1 ∧ owns s.2 s.1 ∧ cursors_linked s.1 ∧ live s.1 s.2.
Proof.
  intros Hcap Hh Hc Hr.
  destruct (ring_buffer_ctor_wf _ _ _ Hcap Hh Hc) as (Hwf & Hown & _).
  apply (reaches_invariants _ _ _ Hr Hwf Hown (ring_buffer_ctor_linked _ _ _ Hc)).
  destruct (ring_buffer_ctor_Ok _ _ _ Hc) as (_ & _ & _ & _ & ->).
  intros idx Hidx. unfold size in Hidx. simpl in Hidx. lia.
Qed.

End Properties.

(** * The scenarios of the test suite, on [int] elements *)

Lemma built_insertions (C : Z) (cs : list (call Z)) (h : heap Z) :
  1 ≤ C < SIZE_MAX / 2 → 1 ≤ brk h → brk h + C ≤ limit h →
  Z.of_nat (length cs) ≤ C →
  Forall (λ c, c ≠ PopFront ∧ c ≠ PopBack ∧ c ≠ Clear) cs →
  ∃ s, built C cs h = Ok s ∧
    wf s.1 ∧ cursors_linked s.1 ∧ max_capacity_ s.1 = C ∧
    size s.1 = Z.of_nat (length cs) ∧
    contents s.1 s.2 = foldl insertion [] cs.
Proof.
  intros HC Hbrk Hlim Hlen Hins. unfold built.
  rewrite ring_buffer_ctor_accepts by done. step_bind.
  set (s0 := (mk_ring_buffer _ _ _ _ _ _, mk_heap _ _ _ _ _)).
  assert (wf s0.1) as Hwf by (subst s0; wf_facts; simpl; lia).
  assert (cursors_linked s0.1) as Hl
    by (unfold cursors_linked; by rewrite walk_right_nonpos).
  destruct (run_insertions (Z.to_nat C + 1) cs s0 Hwf Hl) as
    (s & Hrun & Hwf' & Hl' & (Hcap & _) & Hsz & Hc); [subst s0; simpl; lia|done|].
  exists s. split; [done|]. split_and!; try done.
Qed.





(** C8: on a fresh buffer of capacity 10, [push_front(2 * i)] followed by
    [push_back(2 * i + 1)] for [i = 0, ..., 4] leaves the contents
    [8, 6, 4, 2, 0, 1, 3, 5, 7, 9], front to back. *)
Theorem interleaved_contents (h : heap Z) :
  1 ≤ brk h → brk h + 10 ≤ limit h →
  ∃ rb h', built 10 interleaved h = Ok (rb, h') ∧
    contents rb h' = Some <$> [8; 6; 4; 2; 0; 1; 3; 5; 7; 9].
Proof.
  intros Hbrk Hlim.
  assert (1 ≤ 10 < SIZE_MAX / 2) as HC by (rewrite SIZE_MAX_half; lia).
  assert (Forall (λ c : call Z, c ≠ PopFront ∧ c ≠ PopBack ∧ c ≠ Clear) interleaved)
    as Hins by (repeat constructor; done).
  assert (Z.of_nat (length interleaved) ≤ 10) as Hlen by (simpl; lia).
  destruct (built_insertions 10 interleaved h HC Hbrk Hlim Hlen Hins)
    as ([rb h'] & Hrun & _ & _ & _ & _ & Hc).
  by exists rb, h'.
Qed.

Lemma interleaved_contents_witness :
  1 ≤ brk (arena 100) ∧ brk (arena 100) + 10 ≤ limit (arena 100) ∧
  ∃ rb h', built 10 interleaved (arena 100) = Ok (rb, h') ∧
    contents rb h' = Some <$> [8; 6; 4; 2; 0; 1; 3; 5; 7; 9].
Proof.
  assert (1 ≤ brk (arena 100)) as Hbrk by (simpl; lia).
  assert (brk (arena 100) + 10 ≤ limit (arena 100)) as Hlim by (simpl; lia).
  split_and!; [done..|]. exact (interleaved_contents (arena 100) Hbrk Hlim).
Defined.

(** The named buffers are states of the program. *)
Example fresh3_built : built 3 [] (arena 10) = Ok fresh3.
Proof. reflexivity. Qed.

Example wrapped_built :
  built 3 [PushBack 1; PushFront 0] (arena 100) = Ok (wrapped, wrapped_heap).
Proof. reflexivity. Qed.

Example full_pair_built :
  (s ← built 2 [PushBack 10; PushBack 20] (arena 10); Ok (s.1, cells s.2))
  = Ok (full_pair, cells full_pair_heap).
Proof. reflexivity. Qed.

Lemma wf_wrapped : wf wrapped.
Proof. wf_facts. simpl. lia. Defined.

Lemma live_wrapped : live wrapped wrapped_heap.
Proof.
  intros idx Hidx. unfold size in Hidx. simpl in Hidx.
  assert (idx = 0 ∨ idx = 1) as [-> | ->] by lia; by eexists.
Defined.

Lemma size_within_capacity_witness :
  0 ≤ 3 ∧ heap_ok (arena 10) ∧ ring_buffer_ctor 3 (arena 10) = Ok fresh3 ∧
  0 ≤ size fresh3.1 ≤ capacity fresh3.1 ∧
  ∃ s, run_calls 4 [PushBack 1; PushFront 0; PopBack; PushBack 2; PushBack 3;
                    PushBack 4; Clear; PopFront] fresh3 = Ok s ∧
       0 ≤ size s.1 ≤ capacity s.1.
Proof.
  assert (0 ≤ 3) as Hcap by lia.
  assert (heap_ok (arena 10)) as Hh by (unfold heap_ok; simpl; lia).
  assert (ring_buffer_ctor 3 (arena 10) = Ok fresh3) as Hc by reflexivity.
  destruct (size_within_capacity 3 (arena 10) fresh3 Hcap Hh Hc) as [H0 Hcs].
  destruct (Hcs [PushBack 1; PushFront 0; PopBack; PushBack 2; PushBack 3;
                 PushBack 4; Clear; PopFront] 4%nat) as [Hinv Htotal].
  destruct Htotal as [s Hs]; [simpl; lia|].
  split_and!; try done. exists s. split; [done|]. by apply Hinv.
Defined.

Lemma at_bounds_witness :
  wf wrapped ∧
  at_ wrapped 2 = Throw (out_of_bounds "at") ∧
  at_ fresh3.1 0 = Throw (out_of_bounds "at") ∧
  front fresh3.1 = Throw (out_of_bounds "at") ∧
  back fresh3.1 = Throw (out_of_bounds "at") ∧
  at_ wrapped 0 = Ok (1 + (3 - 1 + 0) mod 3) ∧
  at_ wrapped 1 = Ok (1 + (3 - 1 + 1) mod 3).
Proof.
  destruct (at_bounds wrapped) as (Hout & _ & _ & _ & Hin).
  destruct (at_bounds fresh3.1) as (_ & Hfresh & _ & Hempty & _).
  destruct (Hin wf_wrapped) as [_ Hslot].
  destruct (Hempty eq_refl) as (_ & Hfront & Hback).
  split_and!.
  - exact wf_wrapped.
  - apply Hout. unfold size. simpl. lia.
  - apply (Hfresh 3 (arena 10) fresh3.2); [reflexivity|lia].
  - exact Hfront.
  - exact Hback.
  - apply (Hslot 0). unfold size. simpl. lia.
  - apply (Hslot 1). unfold size. simpl. lia.
Defined.

(** C6 as stated fails after a single [push_back] on a fresh buffer of
    capacity 3: the size is 1 and both cursors are on the first slot, while
    one step to the right of the begin cursor is the second slot. *)
Lemma cursors_size_apart_counterexample :
  ∃ rb h, built 3 [PushBack 7] (arena 10) = Ok (rb, h) ∧
    size rb = 1 ∧ begin_ptr_ rb = 1 ∧ end_ptr_ rb = 1 ∧
    walk_right rb (size rb) (begin_ptr_ rb) = 2 ∧
    ¬ cursors_size_apart rb.
Proof.
  eexists _, _. split; [reflexivity|]. split_and!; try reflexivity.
  unfold cursors_size_apart. vm_compute. discriminate.
Qed.

Lemma cursors_linked_reachable_witness :
  0 ≤ 3 ∧ heap_ok (arena 10) ∧ ring_buffer_ctor 3 (arena 10) = Ok fresh3 ∧
  reaches 4 fresh3 (wrapped, mk_heap {[1 := 1; 3 := 0]} 4 10 [] []) ∧
  capacity wrapped = 3 ∧ buffer_ wrapped = brk (arena 10) ∧
  buffer_ wrapped ≤ begin_ptr_ wrapped < buffer_ wrapped + 3 ∧
  buffer_ wrapped ≤ end_ptr_ wrapped < buffer_ wrapped + 3 ∧
  0 ≤ size wrapped ≤ 3 ∧
  (1 ≤ size wrapped →
     end_ptr_ wrapped - buffer_ wrapped
     = (begin_ptr_ wrapped - buffer_ wrapped + (size wrapped - 1)) mod 3) ∧
  (size wrapped = 0 → begin_ptr_ wrapped = end_ptr_ wrapped) ∧
  walk_right wrapped (size wrapped - 1) (begin_ptr_ wrapped) = end_ptr_ wrapped.
Proof.
  assert (0 ≤ 3) as Hcap by lia.
  assert (heap_ok (arena 10)) as Hh by (unfold heap_ok; simpl; lia).
  assert (ring_buffer_ctor 3 (arena 10) = Ok fresh3) as Hc by reflexivity.
  assert (reaches 4 fresh3 (wrapped, mk_heap {[1 := 1; 3 := 0]} 4 10 [] [])) as Hr.
  { eapply (reaches_step _ _ (PushBack 1)); [reflexivity..|].
    eapply (reaches_step _ _ (PushFront 0)); [reflexivity..|].
    apply reaches_refl. }
  pose proof (cursors_linked_reachable 3 (arena 10) fresh3 4 _ Hcap Hh Hc Hr) as Hall.
  split; [exact Hcap|]. split; [exact Hh|]. split; [exact Hc|]. split; [exact Hr|].
  exact Hall.
Defined.

(** The relation of C6 is lost when a pop removes the only element: after
    [push_back(5); pop_front()] on a fresh buffer of capacity 3 the buffer
    is empty with the begin cursor one slot right of the end cursor, and a
    following [push_back(6)] stores 6 where [front()] does not look. *)
Example pop_of_only_element_unlinks :
  ∃ rb h, built 3 [PushBack 5; PopFront; PushBack 6] (arena 10) = Ok (rb, h) ∧
    size rb = 1 ∧ begin_ptr_ rb = 2 ∧ end_ptr_ rb = 1 ∧
    ¬ cursors_linked rb ∧
    front rb = Ok 2 ∧ cells h !! 2 = None ∧ cells h !! 1 = Some 6.
Proof.
  eexists _, _. split; [reflexivity|]. split_and!; try reflexivity.
  unfold cursors_linked. vm_compute. discriminate.
Qed.

Lemma copy_is_independent_witness :
  wf wrapped ∧ owns wrapped_heap wrapped ∧ live wrapped wrapped_heap ∧
  brk wrapped_heap + max_capacity_ wrapped ≤ limit wrapped_heap ∧
  (Z.to_nat (size wrapped) < 3)%nat ∧
  ∃ b h1,
    ring_buffer_copy_ctor 3 wrapped wrapped_heap = Ok (b, h1) ∧
    capacity b = 3 ∧
    contents b h1 = contents wrapped h1 ∧
    contents wrapped h1 = [Some 0; Some 1] ∧
    ∀ a' h2,
      run_calls 4 [PushBack 2; PushBack 3; PopFront; Clear] (wrapped, h1) = Ok (a', h2) →
      contents b h2 = contents b h1.
Proof.
  assert (owns wrapped_heap wrapped) as Hown by (unfold owns; simpl; lia).
  assert (brk wrapped_heap + max_capacity_ wrapped ≤ limit wrapped_heap) as Hroom
    by (simpl; lia).
  assert (Z.to_nat (size wrapped) < 3)%nat as Hfuel by (unfold size; simpl; lia).
  destruct (copy_is_independent wrapped wrapped_heap 3 wf_wrapped Hown live_wrapped
              Hroom Hfuel) as (b & h1 & Hcopy & Hcap & _ & Hsame & Hold & Hindep).
  split; [exact wf_wrapped|]. split; [exact Hown|]. split; [exact live_wrapped|].
  split; [exact Hroom|]. split; [exact Hfuel|].
  exists b, h1. split; [exact Hcopy|]. split; [exact Hcap|]. split; [exact Hsame|].
  split; [exact Hold|].
  intros a' h2 Hrun. exact (Hindep 4%nat _ a' h2 Hrun).
Defined.

(** C3: a buffer of capacity 2 that holds one live element is destroyed;
    the block is deallocated and no element destructor has run. *)
Theorem dtor_skips_live_elements :
  ∃ rb h, built 2 [EmplaceBack 7] (arena 10) = Ok (rb, h) ∧
    contents rb h = [Some 7] ∧
    destroyed h = [] ∧
    destroyed (ring_buffer_dtor rb h) = [] ∧
    released (ring_buffer_dtor rb h) = [(1, 2)].
Proof. eexists _, _. split; [reflexivity|]. by split_and!. Qed.

(** The counter of the test "Test element destructors are called": three
    [emplace_back] calls on a buffer of capacity 2 run one destructor, on
    the element that was evicted. *)
Example eviction_destroys_once :
  ∃ rb h, built 2 [EmplaceBack 7; EmplaceBack 8; EmplaceBack 9] (arena 10) = Ok (rb, h) ∧
    contents rb h = [Some 8; Some 9] ∧ destroyed h = [(1, Some 7)].
Proof. eexists _, _. split; [reflexivity|]. by split_and!. Qed.

(** C4: on a buffer that holds one element, [operator*] of the end
    iterator throws the bounds error of [at], while [operator->] of the same
    iterator returns the address of the slot behind the last element, which
    holds no object, for the mutable and for the const iterator. *)
Theorem operator_arrow_of_end_is_unchecked :
  ∃ rb h, built 10 [PushBack 1] (arena 100) = Ok (rb, h) ∧
    operator_star rb (end_ rb) = Throw (out_of_bounds "at") ∧
    operator_star rb (cend rb) = Throw (out_of_bounds "at") ∧
    operator_arrow rb (end_ rb) = 2 ∧
    operator_arrow rb (cend rb) = 2 ∧
    cells h !! 2 = None.
Proof. eexists _, _. split; [reflexivity|]. by split_and!. Qed.

(** * Further properties of the container *)

Section Further.

Context {ValueType : Type} {traits : type_traits ValueType}.

Implicit Types (rb : ring_buffer) (h : heap ValueType) (it : internal_Iterator).

(** ** Cursor movement *)

(** X1: on the slots of the block, [advance_ptr_left] and
    [advance_ptr_right] are inverse to each other, neither leaves the block,
    and [capacity] steps to the right lead back to the slot they started
    from. *)
Theorem advance_ptr_inverse rb p :
  wf rb → buffer_ rb ≤ p ≤ buffer_end_ rb →
  advance_ptr_left rb (advance_ptr_right rb p) = p ∧
  advance_ptr_right rb (advance_ptr_left rb p) = p ∧
  buffer_ rb ≤ advance_ptr_left rb p ≤ buffer_end_ rb ∧
  buffer_ rb ≤ advance_ptr_right rb p ≤ buffer_end_ rb ∧
  walk_right rb (capacity rb) p = p.
Proof.
  intros Hwf Hp. split; [|split; [|split; [|split]]].
  - unfold advance_ptr_left, advance_ptr_right.
    destruct (Z.eqb_spec p (buffer_end_ rb)); wf_facts; split_tests; lia.
  - unfold advance_ptr_left, advance_ptr_right.
    destruct (Z.eqb_spec p (buffer_ rb)); wf_facts; split_tests; lia.
  - by apply advance_ptr_left_in_block.
  - by apply advance_ptr_right_in_block.
  - unfold capacity. rewrite walk_right_mod by (wf_facts; lia).
    replace (p - buffer_ rb + max_capacity_ rb)
      with (p - buffer_ rb + 1 * max_capacity_ rb) by lia.
    rewrite Z.mod_add by (wf_facts; lia).
    rewrite Z.mod_small by (wf_facts; lia). lia.
Qed.

(** ** Iterator movement *)

(** X2: [operator++] never moves an iterator past the end: [n] increments
    of [begin()] give the iterator at index [min(n, size())], and an
    increment of [end()] gives [end()]; [operator--] never moves one before
    the begin: [n] decrements of [end()] give the iterator at index
    [max(size() - n, 0)], and a decrement of [begin()] gives [begin()]. *)
Theorem iterator_steps_are_clamped rb (n : nat) :
  wf rb →
  Nat.iter n (operator_incr rb) (begin_ rb) = mk_Iterator false (Z.min (Z.of_nat n) (size rb)) ∧
  Nat.iter n (operator_incr rb) (cbegin rb) = mk_Iterator true (Z.min (Z.of_nat n) (size rb)) ∧
  operator_incr rb (end_ rb) = end_ rb ∧
  Nat.iter n operator_decr (end_ rb) = mk_Iterator false (Z.max (size rb - Z.of_nat n) 0) ∧
  operator_decr (begin_ rb) = begin_ rb.
Proof.
  intros Hwf. assert (0 ≤ size rb < SIZE_MAX / 2) as Hn by (wf_facts; lia).
  rewrite SIZE_MAX_half in Hn.
  assert (∀ c m, Nat.iter m (operator_incr rb) (mk_Iterator c 0)
                 = mk_Iterator c (Z.min (Z.of_nat m) (size rb))) as Hincr.
  { intros c m. induction m as [|m IH]; [simpl; f_equal; lia|].
    rewrite Nat.iter_succ, IH. unfold operator_incr. simpl. f_equal.
    rewrite wrap_small by (rewrite two_pow_size_t; lia). lia. }
  split_and!.
  - apply Hincr.
  - apply Hincr.
  - unfold operator_incr, end_, size in *. simpl. f_equal.
    rewrite wrap_small by (rewrite two_pow_size_t; lia). lia.
  - induction n as [|n IH]; [unfold end_, size in *; simpl; f_equal; lia|].
    rewrite Nat.iter_succ, IH. unfold operator_decr. simpl.
    destruct (Z.leb_spec (Z.max (size rb - Z.of_nat n) 0) 0); f_equal; [lia|].
    rewrite wrap_small by (rewrite two_pow_size_t; lia). lia.
  - done.
Qed.

(** X3: between [begin()] and [end()], [operator++] and [operator--] undo
    each other: a decrement after an increment of an iterator that is not
    the end gives the iterator back, and so does an increment after a
    decrement of an iterator that is not the begin. *)
Theorem iterator_incr_decr_round_trip rb it :
  wf rb → 0 ≤ idx_ it ≤ size rb →
  (idx_ it < size rb → operator_decr (operator_incr rb it) = it) ∧
  (0 < idx_ it → operator_incr rb (operator_decr it) = it).
Proof.
  intros Hwf Hidx. assert (0 ≤ size rb < SIZE_MAX / 2) as Hn by (wf_facts; lia).
  rewrite SIZE_MAX_half in Hn. destruct it as [c idx]. simpl in *. split.
  - intros Hlt. unfold operator_incr, operator_decr. simpl.
    rewrite (wrap_small (idx + 1)) by (rewrite two_pow_size_t; lia).
    rewrite Z.min_r by lia.
    destruct (Z.leb_spec (idx + 1) 0); [lia|]. f_equal.
    rewrite wrap_small by (rewrite two_pow_size_t; lia). lia.
  - intros Hpos. unfold operator_incr, operator_decr. simpl.
    destruct (Z.leb_spec idx 0); [lia|]. simpl. f_equal.
    rewrite (wrap_small (idx - 1)) by (rewrite two_pow_size_t; lia).
    rewrite wrap_small by (rewrite two_pow_size_t; lia). lia.
Qed.

(** ** Iteration *)

Lemma INT64_MAX_eq : INT64_MAX = 9223372036854775807.
Proof. reflexivity. Qed.

Lemma std_distance_loop_range (k : nat) : ∀ fuel rb c idx last n,
  wf rb → 0 ≤ idx → idx + Z.of_nat k = size rb → idx_ last = size rb →
  n + Z.of_nat k ≤ INT64_MAX → (k < fuel)%nat →
  std_distance_loop fuel rb (mk_Iterator c idx) last n = Ok (n + Z.of_nat k).
Proof.
  induction k as [|k IH]; intros fuel rb c idx last n Hwf Hidx Hk Hlast Hn Hfuel;
    (destruct fuel as [|fuel]; [lia|]); simpl;
    unfold operator_ne, operator_eq; simpl; rewrite Hlast.
  - destruct (Z.eqb_spec idx (size rb)); [|lia]. simpl. f_equal. lia.
  - destruct (Z.eqb_spec idx (size rb)); [lia|]. simpl.
    destruct (Z.ltb_spec n INT64_MAX); [|lia].
    assert (operator_incr rb (mk_Iterator c idx) = mk_Iterator c (idx + 1)) as ->.
    { unfold operator_incr. simpl. f_equal.
      rewrite wrap_small by (wf_facts; lia). lia. }
    rewrite (IH fuel rb c (idx + 1) last (n + 1)) by (done || lia).
    f_equal. lia.
Qed.

Lemma std_distance_range rb c last fuel :
  wf rb → idx_ last = size rb → (Z.to_nat (size rb) < fuel)%nat →
  std_distance fuel rb (mk_Iterator c 0) last = Ok (size rb).
Proof.
  intros Hwf Hlast Hfuel. unfold std_distance.
  assert (0 ≤ size rb < INT64_MAX) as Hsz by (rewrite INT64_MAX_eq; wf_facts; lia).
  rewrite (std_distance_loop_range (Z.to_nat (size rb))) by (done || lia).
  f_equal. lia.
Qed.

Lemma uninitialized_copy_range (k : nat) : ∀ fuel rb c idx last h,
  wf rb → 0 ≤ idx → idx + Z.of_nat k = size rb → idx_ last = size rb →
  (∀ j, idx ≤ j < size rb → is_Some (element rb h j)) →
  (k < fuel)%nat →
  ∃ vs, uninitialized_copy fuel rb (mk_Iterator c idx) last h = Ok vs ∧
        Some <$> vs = element rb h <$> seqZ idx (Z.of_nat k).
Proof.
  induction k as [|k IH]; intros fuel rb c idx last h Hwf Hidx Hk Hlast Hlive Hfuel;
    (destruct fuel as [|fuel]; [lia|]); simpl;
    unfold operator_ne, operator_eq; simpl; rewrite Hlast.
  - destruct (Z.eqb_spec idx (size rb)); [|lia]. simpl. by exists [].
  - destruct (Z.eqb_spec idx (size rb)); [lia|]. simpl.
    unfold operator_star. simpl. rewrite at_in_range by lia. step_bind.
    destruct (Hlive idx) as [v Hv]; [lia|].
    rewrite element_in_range in Hv by lia.
    unfold load. rewrite Hv. step_bind.
    assert (operator_incr rb (mk_Iterator c idx) = mk_Iterator c (idx + 1)) as ->.
    { unfold operator_incr. simpl. f_equal.
      rewrite wrap_small by (wf_facts; lia). lia. }
    destruct (IH fuel rb c (idx + 1) last h) as (vs & -> & Hvs); try done; try lia.
    { intros j Hj. apply Hlive. lia. }
    step_bind. exists (v :: vs). split; [done|].
    rewrite (seqZ_cons idx) by lia. rewrite !fmap_cons.
    rewrite element_in_range, Hv by lia. f_equal.
    replace (Z.pred (Z.of_nat (S k))) with (Z.of_nat k) by lia.
    replace (Z.succ idx) with (idx + 1) by lia. done.
Qed.

(** X4: the loop from [begin()] to [end()] (and from [cbegin()] to
    [cend()]) of a buffer whose positions hold objects returns after
    [size()] steps, throws nothing, and yields the elements of the logical
    positions [0 .. size() - 1] in this order, the values that [at] refers
    to. *)
Theorem iteration_yields_contents rb h fuel :
  wf rb → live rb h → (Z.to_nat (size rb) < fuel)%nat →
  ∃ vs,
    to_vector fuel rb (begin_ rb) (end_ rb) h = Ok vs ∧
    to_vector fuel rb (cbegin rb) (cend rb) h = Ok vs ∧
    Z.of_nat (length vs) = size rb ∧
    Some <$> vs = contents rb h ∧
    ∀ idx, 0 ≤ idx < size rb →
      ∃ p, at_ rb idx = Ok p ∧ cells h !! p = vs !! Z.to_nat idx.
Proof.
  intros Hwf Hlive Hfuel. assert (0 ≤ size rb) as Hn by (wf_facts; lia).
  destruct (uninitialized_copy_range (Z.to_nat (size rb)) fuel rb false 0 (end_ rb) h)
    as (vs & Hrun & Hvs); try done; try lia.
  destruct (uninitialized_copy_range (Z.to_nat (size rb)) fuel rb true 0 (cend rb) h)
    as (vs' & Hrun' & Hvs'); try done; try lia.
  assert (to_vector fuel rb (begin_ rb) (end_ rb) h = Ok vs) as Hvec.
  { unfold to_vector, begin_.
    by rewrite std_distance_range. }
  assert (to_vector fuel rb (cbegin rb) (cend rb) h = Ok vs') as Hvec'.
  { unfold to_vector, cbegin.
    by rewrite std_distance_range. }
  clear Hrun Hrun'. rename Hvec into Hrun. rename Hvec' into Hrun'.
  rewrite Z2Nat.id in Hvs, Hvs' by done.
  assert (vs' = vs) as ->.
  { apply (inj (fmap Some)). congruence. }
  exists vs. split; [done|]. split; [done|].
  assert (Z.of_nat (length vs) = size rb) as Hlen.
  { apply (f_equal length) in Hvs. rewrite !length_fmap, length_seqZ in Hvs. lia. }
  split; [done|]. split; [done|].
  intros idx Hidx. exists (unchecked_ptr_from_idx rb idx).
  split; [apply at_in_range; lia|].
  apply (f_equal (λ l, l !! Z.to_nat idx)) in Hvs.
  rewrite !list_lookup_fmap, lookup_seqZ_lt in Hvs by lia. simpl in Hvs.
  rewrite Z2Nat.id, element_in_range in Hvs by lia.
  replace (0 + idx) with idx in Hvs by lia.
  destruct (vs !! Z.to_nat idx) as [v|] eqn:Hv; simpl in Hvs; [congruence|].
  apply lookup_ge_None in Hv. lia.
Qed.

Lemma std_distance_loop_past_end (fuel : nat) : ∀ rb c idx last n,
  wf rb → 0 ≤ idx ≤ size rb → size rb < idx_ last → 0 ≤ n ≤ INT64_MAX →
  std_distance_loop fuel rb (mk_Iterator c idx) last n
  = if n + Z.of_nat fuel <=? INT64_MAX then OutOfFuel else Undefined.
Proof.
  induction fuel as [|fuel IH]; intros rb c idx last n Hwf Hidx Hlast Hn.
  - simpl. by destruct (Z.leb_spec (n + Z.of_nat 0) INT64_MAX); [|lia].
  - simpl. unfold operator_ne, operator_eq. simpl.
    destruct (Z.eqb_spec idx (idx_ last)); [lia|]. simpl.
    destruct (Z.ltb_spec n INT64_MAX).
    + unfold operator_incr. simpl.
      rewrite wrap_small by (wf_facts; lia).
      rewrite IH by (done || lia).
      replace (n + 1 + Z.of_nat fuel) with (n + Z.of_nat (S fuel)) by lia. done.
    + by destruct (Z.leb_spec (n + Z.of_nat (S fuel)) INT64_MAX); [lia|].
Qed.

(** X5: [std::vector<ValueType> vec(begin(), last)] with an iterator
    [last] whose index is beyond the present size, such as an [end()] taken
    before a [clear()], never yields a vector and never throws:
    [operator++] stops at the present size, so the iterator with which
    [std::distance] measures the range never equals [last].  Whatever
    number of steps the call is given, it is still measuring when they run
    out, unless they are enough to take the counter beyond the largest
    [difference_type], which is undefined. *)
Theorem vector_from_stale_end_never_returns rb h last fuel :
  wf rb → size rb < idx_ last →
  to_vector fuel rb (begin_ rb) last h
  = (if Z.of_nat fuel <=? INT64_MAX then OutOfFuel else Undefined) ∧
  to_vector fuel rb (cbegin rb) last h
  = (if Z.of_nat fuel <=? INT64_MAX then OutOfFuel else Undefined) ∧
  (∀ vs, to_vector fuel rb (begin_ rb) last h ≠ Ok vs) ∧
  (∀ e, to_vector fuel rb (begin_ rb) last h ≠ Throw e) ∧
  (∀ vs, to_vector fuel rb (cbegin rb) last h ≠ Ok vs) ∧
  (∀ e, to_vector fuel rb (cbegin rb) last h ≠ Throw e).
Proof.
  intros Hwf Hlast. assert (0 ≤ 0 ≤ size rb) as Hidx by (wf_facts; lia).
  assert (0 ≤ 0 ≤ INT64_MAX) as Hn by (rewrite INT64_MAX_eq; lia).
  pose proof (std_distance_loop_past_end fuel rb false 0 last 0 Hwf Hidx Hlast Hn) as Hd.
  pose proof (std_distance_loop_past_end fuel rb true 0 last 0 Hwf Hidx Hlast Hn) as Hd'.
  assert (to_vector fuel rb (begin_ rb) last h
          = if Z.of_nat fuel <=? INT64_MAX then OutOfFuel else Undefined) as Hv.
  { unfold to_vector, std_distance, begin_. rewrite Hd, Z.add_0_l.
    by destruct (Z.of_nat fuel <=? INT64_MAX). }
  assert (to_vector fuel rb (cbegin rb) last h
          = if Z.of_nat fuel <=? INT64_MAX then OutOfFuel else Undefined) as Hv'.
  { unfold to_vector, std_distance, cbegin. rewrite Hd', Z.add_0_l.
    by destruct (Z.of_nat fuel <=? INT64_MAX). }
  split; [exact Hv|]. split; [exact Hv'|]. rewrite Hv, Hv'.
  by destruct (Z.of_nat fuel <=? INT64_MAX).
Qed.

(** ** The container as a bounded double-ended queue *)






(** ** Insertion at the front of a full buffer *)


(** ** Access after an insertion *)


(** ** clear *)

Lemma destroy_range_None rb (k : nat) : ∀ lo h p,
  cells h !! p = None → cells (destroy_range rb lo (Z.of_nat k) h) !! p = None.
Proof.
  induction k as [|k IH]; intros lo h p Hp; [done|].
  unfold destroy_range. rewrite (seqZ_cons lo) by lia.
  replace (Z.pred (Z.of_nat (S k))) with (Z.of_nat k) by lia. simpl.
  apply (IH (Z.succ lo)). simpl. by apply lookup_delete_None; right.
Qed.

Lemma destroy_range_cells rb (k : nat) : ∀ lo h idx,
  lo ≤ idx < lo + Z.of_nat k →
  cells (destroy_range rb lo (Z.of_nat k) h) !! unchecked_ptr_from_idx rb idx = None.
Proof.
  induction k as [|k IH]; intros lo h idx Hidx; [lia|].
  unfold destroy_range. rewrite (seqZ_cons lo) by lia.
  replace (Z.pred (Z.of_nat (S k))) with (Z.of_nat k) by lia. simpl.
  fold (destroy_range rb (Z.succ lo) (Z.of_nat k) (destroy (unchecked_ptr_from_idx rb lo) h)).
  destruct (Z.eq_dec idx lo) as [->|Hne].
  - apply destroy_range_None. simpl. apply lookup_delete_eq.
  - apply IH. lia.
Qed.

(** X9: [clear()], whatever the cursors were, returns after one pass over
    the elements and leaves the container as the constructor built it on
    this block: size 0, both cursors on the first slot of the block, no
    contents, the cursor relation in place; it touches no memory outside the
    block. *)
Theorem clear_resets rb h fuel :
  wf rb → (Z.to_nat (size rb) < fuel)%nat →
  ∃ h',
    clear fuel rb h = Ok (constructed (max_capacity_ rb) (buffer_ rb), h') ∧
    (∀ hc s, ring_buffer_ctor (max_capacity_ rb) hc = Ok s → brk hc = buffer_ rb →
             s.1 = constructed (max_capacity_ rb) (buffer_ rb)) ∧
    size (constructed (max_capacity_ rb) (buffer_ rb)) = 0 ∧
    contents (constructed (max_capacity_ rb) (buffer_ rb)) h' = [] ∧
    cursors_linked (constructed (max_capacity_ rb) (buffer_ rb)) ∧
    frame rb h h'.
Proof.
  intros Hwf Hfuel.
  assert (mk_ring_buffer (max_capacity_ rb) (buffer_ rb) (buffer_end_ rb)
            (buffer_ rb) (buffer_ rb) 0
          = constructed (max_capacity_ rb) (buffer_ rb)) as Hrec.
  { unfold constructed. f_equal. wf_facts. lia. }
  pose proof (clear_spec fuel rb h Hwf Hfuel) as Hclear. rewrite Hrec in Hclear.
  eexists. split; [exact Hclear|]. split; [|split; [done|split; [done|split]]].
  - intros hc s Hc Hbrk.
    destruct (ring_buffer_ctor_Ok _ _ _ Hc) as (_ & _ & _ & _ & ->).
    simpl. by rewrite Hbrk.
  - unfold cursors_linked. by rewrite walk_right_nonpos.
  - exact (clear_frame _ _ _ _ Hwf Hclear).
Qed.

(** X10: for a destructible type, [clear()] runs the destructor exactly
    once on the slot of each logical position, front to back, and no slot of
    a logical position holds an object afterwards; for a type that is not
    destructible it runs no destructor and leaves the heap as it is. *)
Theorem clear_destroys_each_once rb h fuel :
  wf rb → (Z.to_nat (size rb) < fuel)%nat →
  ∃ s, clear fuel rb h = Ok s ∧
    (is_destructible = true →
       (destroyed s.2).*1
       = reverse (unchecked_ptr_from_idx rb <$> seqZ 0 (size rb)) ++ (destroyed h).*1 ∧
       NoDup (unchecked_ptr_from_idx rb <$> seqZ 0 (size rb)) ∧
       ∀ idx, 0 ≤ idx < size rb →
         at_ rb idx = Ok (unchecked_ptr_from_idx rb idx) ∧
         cells s.2 !! unchecked_ptr_from_idx rb idx = None) ∧
    (is_destructible = false → s.2 = h).
Proof.
  intros Hwf Hfuel. pose proof (clear_spec fuel rb h Hwf Hfuel) as Hclear.
  eexists. split; [exact Hclear|]. split.
  - intros Hd. split; [by apply (clear_log fuel _ _ _ Hwf Hd Hfuel Hclear)|].
    split; [by apply slots_NoDup|].
    intros idx Hidx. split; [apply at_in_range; lia|].
    rewrite Hd. simpl.
    rewrite <- (Z2Nat.id (current_size_ rb)) by (wf_facts; lia).
    apply destroy_range_cells. unfold size in *. lia.
  - intros Hd. by rewrite Hd.
Qed.

(** ** The block *)

(** X11: no sequence of insertions and [clear] calls on a constructed
    buffer changes its capacity or moves its block, lets a cursor leave the
    block, allocates or deallocates, or changes a memory cell outside the
    block. *)
Theorem calls_stay_in_block max_capacity h s0 (cs : list (call ValueType)) fuel s :
  0 ≤ max_capacity → heap_ok h →
  ring_buffer_ctor max_capacity h = Ok s0 →
  Forall instantiable cs →
  run_calls fuel cs s0 = Ok s →
  capacity s.1 = max_capacity ∧
  buffer_ s.1 = buffer_ s0.1 ∧
  buffer_ s.1 ≤ begin_ptr_ s.1 < buffer_ s.1 + max_capacity ∧
  buffer_ s.1 ≤ end_ptr_ s.1 < buffer_ s.1 + max_capacity ∧
  brk s.2 = brk s0.2 ∧ released s.2 = released h ∧
  ∀ p, ¬ (buffer_ s0.1 ≤ p < buffer_ s0.1 + max_capacity) → cells s.2 !! p = cells h !! p.
Proof.
  intros Hcap Hh Hc _ Hrun.
  destruct (ring_buffer_ctor_wf _ _ _ Hcap Hh Hc) as (Hwf & _).
  destruct (run_calls_wf _ _ _ _ Hwf Hrun) as [Hwf' (Hbc & Hbb & Hbe)].
  destruct (run_calls_frame _ _ _ _ Hwf Hrun) as (Hbrk & _ & Hrel & Hcells).
  destruct (ring_buffer_ctor_Ok _ _ _ Hc) as (_ & _ & _ & _ & Hs0).
  assert (max_capacity_ s0.1 = max_capacity ∧ released s0.2 = released h ∧
          cells s0.2 = cells h ∧ buffer_end_ s0.1 = buffer_ s0.1 + (max_capacity - 1))
    as (Hm & Hr0 & Hc0 & He0) by (by rewrite Hs0).
  unfold capacity. split; [congruence|]. split; [done|].
  split; [wf_facts; lia|]. split; [wf_facts; lia|].
  split; [done|]. split; [congruence|].
  intros p Hp. rewrite Hcells, Hc0; [done|]. lia.
Qed.

(** ** Element types that are not destructible *)

Lemma add_back_uninitialized_element_keeps rb h :
  is_destructible = false → (add_back_uninitialized_element rb h).2 = h.
Proof.
  intros Hd. unfold add_back_uninitialized_element, remove_advance_right. cbv zeta.
  rewrite Hd. by destruct (_ =? _).
Qed.

Lemma add_front_uninitialized_element_keeps rb h :
  is_destructible = false → (add_front_uninitialized_element rb h).2 = h.
Proof.
  intros Hd. unfold add_front_uninitialized_element, remove_advance_left. cbv zeta.
  rewrite Hd. by destruct (_ =? _).
Qed.

Lemma run_call_keeps fuel (c : call ValueType) s s' :
  is_destructible = false → instantiable c →
  run_call fuel c s = Ok s' →
  destroyed s'.2 = destroyed s.2 ∧
  ∀ p, is_Some (cells s.2 !! p) → is_Some (cells s'.2 !! p).
Proof.
  intros Hd [Hc1 Hc2]. destruct s as [rb h]. destruct c; simpl; try done.
  - intros [= <-]. unfold push_back.
    pose proof (add_back_uninitialized_element_keeps rb h Hd) as Hk.
    destruct (add_back_uninitialized_element rb h) as [rb' h']. simpl in *. subst h'.
    split; [done|]. intros p Hp. rewrite lookup_insert. by case_decide.
  - intros [= <-]. unfold emplace_back.
    pose proof (add_back_uninitialized_element_keeps rb h Hd) as Hk.
    destruct (add_back_uninitialized_element rb h) as [rb' h']. simpl in *. subst h'.
    split; [done|]. intros p Hp. rewrite lookup_insert. by case_decide.
  - intros [= <-]. unfold push_front.
    pose proof (add_front_uninitialized_element_keeps rb h Hd) as Hk.
    destruct (add_front_uninitialized_element rb h) as [rb' h']. simpl in *. subst h'.
    split; [done|]. intros p Hp. rewrite lookup_insert. by case_decide.
  - intros [= <-]. unfold emplace_front.
    pose proof (add_front_uninitialized_element_keeps rb h Hd) as Hk.
    destruct (add_front_uninitialized_element rb h) as [rb' h']. simpl in *. subst h'.
    split; [done|]. intros p Hp. rewrite lookup_insert. by case_decide.
  - unfold clear, remove_elements. rewrite Hd. step_bind. by intros [= <-].
Qed.

(** X12: for an element type that is not destructible, no sequence of
    insertions and [clear] calls runs a destructor, and an object that is in
    memory stays in memory until it is overwritten: eviction and [clear]
    only move the cursors. *)
Theorem indestructible_elements_are_never_destroyed fuel (cs : list (call ValueType)) :
  ∀ s s',
  is_destructible = false → Forall instantiable cs →
  run_calls fuel cs s = Ok s' →
  destroyed s'.2 = destroyed s.2 ∧
  ∀ p, is_Some (cells s.2 !! p) → is_Some (cells s'.2 !! p).
Proof.
  induction cs as [|c cs IH]; intros s s' Hd Hcs; simpl.
  - by intros [= <-].
  - apply Forall_cons in Hcs as [Hc Hcs].
    destruct (run_call fuel c s) as [s1| | |] eqn:Hrun1; step_bind; [|done..].
    intros Hrun. destruct (run_call_keeps _ _ _ _ Hd Hc Hrun1) as [Hd1 Hk1].
    destruct (IH _ _ Hd Hcs Hrun) as [Hd' Hk']. split; [congruence|].
    intros p Hp. by apply Hk', Hk1.
Qed.

(** ** Counting evictions *)

Lemma insertion_counts fuel (c : call ValueType) s :
  wf s.1 → inserts c →
  ∃ s1, run_call fuel c s = Ok s1 ∧ wf s1.1 ∧
    max_capacity_ s1.1 = max_capacity_ s.1 ∧
    size s1.1 = Z.min (size s.1 + 1) (max_capacity_ s.1) ∧
    length (destroyed s1.2)
    = (length (destroyed s.2)
       + if is_destructible && (size s.1 =? max_capacity_ s.1)%Z then 1 else 0)%nat.
Proof.
  destruct s as [rb h]. simpl. intros Hwf (Hc1 & Hc2 & Hc3).
  assert (∀ v, wf (push_back v rb h).1 ∧
               max_capacity_ (push_back v rb h).1 = max_capacity_ rb ∧
               size (push_back v rb h).1 = Z.min (size rb + 1) (max_capacity_ rb) ∧
               length (destroyed (push_back v rb h).2)
               = (length (destroyed h)
                  + if is_destructible && (size rb =? max_capacity_ rb)%Z then 1 else 0)%nat)
    as Hback.
  { intros v. pose proof (add_back_uninitialized_element_wf rb h Hwf) as [Hwf' (Hb & _)].
    rewrite <- (push_back_fst v) in Hwf', Hb. split; [done|]. split; [done|].
    unfold push_back. unfold size.
    destruct (Z.lt_ge_cases (current_size_ rb) (max_capacity_ rb)).
    - rewrite add_back_uninitialized_element_grow by done. simpl.
      destruct (Z.eqb_spec (current_size_ rb) (max_capacity_ rb)); [lia|].
      rewrite andb_false_r. lia.
    - rewrite add_back_uninitialized_element_full by (wf_facts; lia). simpl.
      destruct (Z.eqb_spec (current_size_ rb) (max_capacity_ rb)); [|wf_facts; lia].
      rewrite andb_true_r. destruct is_destructible; simpl; lia. }
  assert (∀ v, wf (push_front v rb h).1 ∧
               max_capacity_ (push_front v rb h).1 = max_capacity_ rb ∧
               size (push_front v rb h).1 = Z.min (size rb + 1) (max_capacity_ rb) ∧
               length (destroyed (push_front v rb h).2)
               = (length (destroyed h)
                  + if is_destructible && (size rb =? max_capacity_ rb)%Z then 1 else 0)%nat)
    as Hfront.
  { intros v. pose proof (add_front_uninitialized_element_wf rb h Hwf) as [Hwf' (Hb & _)].
    rewrite <- (push_front_fst v) in Hwf', Hb. split; [done|]. split; [done|].
    unfold push_front. unfold size.
    destruct (Z.lt_ge_cases (current_size_ rb) (max_capacity_ rb)).
    - rewrite add_front_uninitialized_element_grow by done. simpl.
      destruct (Z.eqb_spec (current_size_ rb) (max_capacity_ rb)); [lia|].
      rewrite andb_false_r. lia.
    - rewrite add_front_uninitialized_element_full by (wf_facts; lia). simpl.
      destruct (Z.eqb_spec (current_size_ rb) (max_capacity_ rb)); [|wf_facts; lia].
      rewrite andb_true_r. destruct is_destructible; simpl; lia. }
  destruct c; try done; simpl; eexists; (split; [done|]); simpl;
    rewrite ?emplace_back_eq, ?emplace_front_eq; apply Hback || apply Hfront.
Qed.

Lemma insertions_count fuel (cs : list (call ValueType)) : ∀ s,
  wf s.1 → Forall inserts cs →
  ∃ s', run_calls fuel cs s = Ok s' ∧
    size s'.1 = Z.min (size s.1 + Z.of_nat (length cs)) (max_capacity_ s.1) ∧
    Z.of_nat (length (destroyed s'.2))
    = Z.of_nat (length (destroyed s.2))
      + if is_destructible
        then Z.max 0 (size s.1 + Z.of_nat (length cs) - max_capacity_ s.1)
        else 0.
Proof.
  induction cs as [|c cs IH]; intros s Hwf Hcs.
  - exists s. split; [done|]. simpl. assert (0 ≤ size s.1 ≤ max_capacity_ s.1)
      by (wf_facts; lia). destruct is_destructible; lia.
  - apply Forall_cons in Hcs as [Hc Hcs].
    destruct (insertion_counts fuel c s Hwf Hc) as (s1 & Hrun1 & Hwf1 & Hcap1 & Hsz1 & Hd1).
    destruct (IH s1 Hwf1 Hcs) as (s' & Hrun & Hsz & Hd).
    exists s'. simpl run_calls. rewrite Hrun1. step_bind. split; [done|].
    assert (0 ≤ size s.1 ≤ max_capacity_ s.1) by (wf_facts; lia).
    rewrite Hcap1, Hsz1 in *. rewrite length_cons.
    split; [lia|]. rewrite Hd, Hd1.
    destruct is_destructible; simpl; [|lia].
    destruct (Z.eqb_spec (size s.1) (max_capacity_ s.1)); lia.
Qed.

(** X13: after [n] insertions ([push_back], [emplace_back], [push_front],
    [emplace_front], in any order) on a buffer of capacity [C] right after
    its construction, [size()] is [min(n, C)] and, for a destructible type,
    exactly [max(0, n - C)] destructors have run, one per eviction; for a
    type that is not destructible none has run. *)
Theorem evictions_are_counted max_capacity h s0 (cs : list (call ValueType)) fuel :
  0 ≤ max_capacity → heap_ok h →
  ring_buffer_ctor max_capacity h = Ok s0 →
  Forall inserts cs →
  ∃ s, run_calls fuel cs s0 = Ok s ∧
    size s.1 = Z.min (Z.of_nat (length cs)) max_capacity ∧
    Z.of_nat (length (destroyed s.2))
    = Z.of_nat (length (destroyed h))
      + if is_destructible then Z.max 0 (Z.of_nat (length cs) - max_capacity) else 0.
Proof.
  intros Hcap Hh Hc Hcs.
  destruct (ring_buffer_ctor_wf _ _ _ Hcap Hh Hc) as (Hwf & _).
  destruct (insertions_count fuel cs s0 Hwf Hcs) as (s & Hrun & Hsz & Hd).
  destruct (ring_buffer_ctor_Ok _ _ _ Hc) as (_ & _ & _ & _ & Hs0).
  assert (size s0.1 = 0 ∧ max_capacity_ s0.1 = max_capacity ∧
          destroyed s0.2 = destroyed h) as (Hz & Hm & Hd0) by (by rewrite Hs0).
  rewrite Hz, Hm, Hd0 in *. exists s. split; [done|]. split; [lia|].
  rewrite Hd. by destruct is_destructible.
Qed.

(** ** The constructor *)

(** X14: for a type of non-zero size the constructor returns a buffer
    exactly when the capacity is at least 1 and below [SIZE_MAX / 2] and the
    allocator has room for the block; the buffer then has size 0, the
    requested capacity, both cursors on the first slot of a block that the
    allocator handed out, no contents, and [front()] and [back()] throw; the
    objects, the destructor log and the deallocations of the heap are as
    before. *)
Theorem constructor_establishes max_capacity h :
  0 ≤ max_capacity → 1 ≤ brk h → sizeof_ValueType ≠ 0 →
  ((∃ s, ring_buffer_ctor max_capacity h = Ok s)
   ↔ 1 ≤ max_capacity < SIZE_MAX / 2 ∧ brk h + max_capacity ≤ limit h) ∧
  ∀ s, ring_buffer_ctor max_capacity h = Ok s →
    s.1 = constructed max_capacity (brk h) ∧
    size s.1 = 0 ∧ capacity s.1 = max_capacity ∧
    wf s.1 ∧ owns s.2 s.1 ∧ cursors_linked s.1 ∧
    contents s.1 s.2 = [] ∧
    front s.1 = Throw (out_of_bounds "at") ∧ back s.1 = Throw (out_of_bounds "at") ∧
    cells s.2 = cells h ∧ destroyed s.2 = destroyed h ∧ released s.2 = released h ∧
    brk s.2 = brk h + max_capacity.
Proof.
  intros Hcap Hbrk Hsz. split.
  - split.
    + intros (s & Hc). destruct (ring_buffer_ctor_Ok _ _ _ Hc) as (? & ? & ? & _). lia.
    + intros (Hr & Hroom). eexists. by apply ring_buffer_ctor_accepts.
  - intros s Hc.
    assert (heap_ok h) as Hh by (unfold heap_ok; lia).
    destruct (ring_buffer_ctor_wf _ _ _ Hcap Hh Hc) as (Hwf & Hown & _).
    pose proof (ring_buffer_ctor_linked _ _ _ Hc) as Hl.
    destruct (ring_buffer_ctor_Ok _ _ _ Hc) as (_ & _ & _ & _ & Hs).
    split; [by rewrite Hs|]. split; [by rewrite Hs|]. split; [by rewrite Hs|].
    split; [done|]. split; [done|]. split; [done|].
    split; [by rewrite Hs|].
    split; [rewrite Hs; apply at_out_of_range; unfold size; simpl; lia|].
    split; [rewrite Hs; unfold back; simpl; apply at_out_of_range; unfold size; simpl; lia|].
    by rewrite Hs.
Qed.

(** ** Unchecked dereference *)

(** X15: whatever the index of an iterator, [operator->] returns the
    address of a slot of the container's block, so the unchecked
    dereference never leaves the allocation; for an index below the size it
    is the address that [operator*] returns. *)
Theorem operator_arrow_stays_in_block rb it :
  wf rb →
  buffer_ rb ≤ operator_arrow rb it < buffer_ rb + capacity rb ∧
  (idx_ it < size rb → operator_star rb it = Ok (operator_arrow rb it)).
Proof.
  intros Hwf. split.
  - pose proof (unchecked_ptr_from_idx_in_block rb (idx_ it) Hwf).
    unfold operator_arrow, capacity. wf_facts. lia.
  - intros Hidx. unfold operator_star, operator_arrow. by apply at_in_range.
Qed.

(** ** The copy as a container of its own *)

Lemma std_copy_cursors (k : nat) : ∀ fuel src c idx dst h dst' h',
  wf dst → cursors_linked dst →
  0 ≤ idx → size dst = idx → idx + Z.of_nat k = size src →
  size src ≤ max_capacity_ dst → idx_ c = size src →
  std_copy fuel src (mk_Iterator true idx) c dst h = Ok (dst', h') →
  cursors_linked dst' ∧ begin_ptr_ dst' = begin_ptr_ dst.
Proof.
  induction k as [|k IH];
    intros fuel src c idx dst h dst' h' Hdst Hl Hidx Hsz Hk Hcap Hc;
    (destruct fuel as [|fuel]; [done|]); simpl;
    unfold operator_ne, operator_eq; simpl; rewrite Hc.
  - destruct (Z.eqb_spec idx (size src)); [|lia]. simpl. by intros [= <- <-].
  - destruct (Z.eqb_spec idx (size src)); [lia|]. simpl.
    destruct (operator_star src _) as [p| | |]; step_bind; [|done..].
    destruct (load p h) as [v| | |]; step_bind; [|done..].
    assert (size dst < max_capacity_ dst) as Hroom by lia.
    destruct (push_back_inv v dst h Hdst Hl) as (Hdst1 & Hl1 & Hb1).
    pose proof (push_back_grow v dst h Hdst Hl Hroom) as Hpush.
    destruct (push_back v dst h) as [dst1 h1]. simpl in *.
    injection Hpush as -> ->.
    assert (operator_incr src (mk_Iterator true idx) = mk_Iterator true (idx + 1)) as ->.
    { unfold operator_incr. simpl. f_equal.
      rewrite wrap_small by (wf_facts; lia). lia. }
    intros Hrun.
    eapply (IH fuel src c (idx + 1)) in Hrun; try done; try lia.
    unfold size in *. simpl. lia.
Qed.

(** X16: the copy [b] of a buffer [a] is a container of its own: it has
    the shape of a constructed buffer with its begin cursor on the first
    slot of its block, whatever the cursors of [a], it keeps the cursor
    relation, every position of it holds an object, and no later sequence of
    insertions and [clear] calls on [b] changes the contents of [a]. *)
Theorem copy_is_a_container a h fuel b h1 :
  wf a → owns h a → live a h →
  (Z.to_nat (size a) < fuel)%nat →
  ring_buffer_copy_ctor fuel a h = Ok (b, h1) →
  wf b ∧ owns h1 b ∧ cursors_linked b ∧ live b h1 ∧
  begin_ptr_ b = buffer_ b ∧ buffer_ b = brk h ∧
  ∀ fuel' (cs : list (call ValueType)) b' h2,
    Forall instantiable cs →
    run_calls fuel' cs (b, h1) = Ok (b', h2) → contents a h2 = contents a h1.
Proof.
  intros Hwf Hown Hlive Hfuel.
  unfold ring_buffer_copy_ctor, allocate, nullptr.
  destruct (Z.eqb_spec (max_capacity_ a) 0); [done|].
  destruct (Z.leb_spec (brk h + max_capacity_ a) (limit h)); step_bind; [|done].
  destruct (Z.eqb_spec 0 (brk h)); [done|].
  set (b0 := mk_ring_buffer _ _ _ _ _ _). set (h0 := mk_heap _ _ _ _ _).
  intros Hcopy.
  assert (wf b0) as Hwf0 by (subst b0; wf_facts; simpl; lia).
  assert (cursors_linked b0) as Hl0
    by (unfold cursors_linked; by rewrite walk_right_nonpos).
  assert (buffer_end_ a < buffer_ b0) as Hdisj by (subst b0; wf_facts; simpl; lia).
  assert (0 ≤ size a ≤ max_capacity_ a) as Hn by (wf_facts; lia).
  destruct (std_copy_spec (Z.to_nat (size a)) fuel a true 0 b0 h0)
    as (b1 & h1' & Hcopy' & Hwfb & Hb & Hf & _ & Hc); try done; try lia.
  unfold cbegin in Hcopy. rewrite Hcopy' in Hcopy. injection Hcopy as -> ->.
  destruct (std_copy_cursors (Z.to_nat (size a)) fuel a (cend a) 0 b0 h0 b h1)
    as [Hlb Hbegin]; try done; try lia; [subst b0; simpl; lia|].
  destruct Hb as (Hbc & Hbb & Hbe).
  assert (contents a h1 = contents a h) as Ha
    by (rewrite (contents_frame a b0 h0 h1) by (done || lia); done).
  split; [done|]. split.
  { destruct Hf as (Hbrk & _). unfold owns. rewrite Hbrk, Hbc, Hbb.
    subst b0 h0. simpl. lia. }
  split; [done|]. split.
  { apply live_contents; [wf_facts; lia|].
    rewrite Hc, (contents_empty b0) by done. simpl.
    rewrite Z2Nat.id by lia. fold (contents a h0).
    change (contents a h0) with (contents a h).
    apply live_contents; [lia|done]. }
  split; [rewrite Hbegin, Hbb; done|]. split; [by rewrite Hbb|].
  intros fuel' cs b' h2 _ Hrun.
  apply (contents_frame a b); [done| |right; subst b0; simpl in *; lia].
  by apply (run_calls_frame fuel' cs (b, h1) (b', h2)).
Qed.

End Further.

(** * Instances of the further properties, on [int] elements *)

Lemma linked_wrapped : cursors_linked wrapped.
Proof. reflexivity. Defined.



Lemma heap_ok_arena : heap_ok (arena 10).
Proof. unfold heap_ok. simpl. lia. Defined.

Lemma advance_ptr_inverse_witness :
  wf wrapped ∧ buffer_ wrapped ≤ 3 ≤ buffer_end_ wrapped ∧
  advance_ptr_left wrapped (advance_ptr_right wrapped 3) = 3 ∧
  advance_ptr_right wrapped (advance_ptr_left wrapped 3) = 3 ∧
  buffer_ wrapped ≤ advance_ptr_left wrapped 3 ≤ buffer_end_ wrapped ∧
  buffer_ wrapped ≤ advance_ptr_right wrapped 3 ≤ buffer_end_ wrapped ∧
  walk_right wrapped (capacity wrapped) 3 = 3.
Proof.
  assert (buffer_ wrapped ≤ 3 ≤ buffer_end_ wrapped) as Hp by (simpl; lia).
  split; [exact wf_wrapped|]. split; [exact Hp|].
  exact (advance_ptr_inverse wrapped 3 wf_wrapped Hp).
Defined.

Lemma iterator_steps_are_clamped_witness :
  wf wrapped ∧
  Nat.iter 5 (operator_incr wrapped) (begin_ wrapped)
  = mk_Iterator false (Z.min (Z.of_nat 5) (size wrapped)) ∧
  Nat.iter 5 (operator_incr wrapped) (cbegin wrapped)
  = mk_Iterator true (Z.min (Z.of_nat 5) (size wrapped)) ∧
  operator_incr wrapped (end_ wrapped) = end_ wrapped ∧
  Nat.iter 5 operator_decr (end_ wrapped)
  = mk_Iterator false (Z.max (size wrapped - Z.of_nat 5) 0) ∧
  operator_decr (begin_ wrapped) = begin_ wrapped.
Proof.
  split; [exact wf_wrapped|]. exact (iterator_steps_are_clamped wrapped 5 wf_wrapped).
Defined.

Lemma iterator_incr_decr_round_trip_witness :
  wf wrapped ∧ 0 ≤ idx_ (mk_Iterator false 1) ≤ size wrapped ∧
  (idx_ (mk_Iterator false 1) < size wrapped →
   operator_decr (operator_incr wrapped (mk_Iterator false 1)) = mk_Iterator false 1) ∧
  (0 < idx_ (mk_Iterator false 1) →
   operator_incr wrapped (operator_decr (mk_Iterator false 1)) = mk_Iterator false 1).
Proof.
  assert (0 ≤ idx_ (mk_Iterator false 1) ≤ size wrapped) as Hidx
    by (unfold size; simpl; lia).
  split; [exact wf_wrapped|]. split; [exact Hidx|].
  exact (iterator_incr_decr_round_trip wrapped (mk_Iterator false 1) wf_wrapped Hidx).
Defined.

Lemma iteration_yields_contents_witness :
  wf wrapped ∧ live wrapped wrapped_heap ∧ (Z.to_nat (size wrapped) < 3)%nat ∧
  ∃ vs,
    to_vector 3 wrapped (begin_ wrapped) (end_ wrapped) wrapped_heap = Ok vs ∧
    to_vector 3 wrapped (cbegin wrapped) (cend wrapped) wrapped_heap = Ok vs ∧
    Z.of_nat (length vs) = size wrapped ∧
    Some <$> vs = contents wrapped wrapped_heap ∧
    ∀ idx, 0 ≤ idx < size wrapped →
      ∃ p, at_ wrapped idx = Ok p ∧ cells wrapped_heap !! p = vs !! Z.to_nat idx.
Proof.
  assert (Z.to_nat (size wrapped) < 3)%nat as Hfuel by (unfold size; simpl; lia).
  split; [exact wf_wrapped|]. split; [exact live_wrapped|]. split; [exact Hfuel|].
  exact (iteration_yields_contents wrapped wrapped_heap 3 wf_wrapped live_wrapped Hfuel).
Defined.

Lemma vector_from_stale_end_never_returns_witness :
  wf wrapped ∧ size wrapped < idx_ (mk_Iterator false 3) ∧
  to_vector 5 wrapped (begin_ wrapped) (mk_Iterator false 3) wrapped_heap = OutOfFuel ∧
  to_vector 5 wrapped (cbegin wrapped) (mk_Iterator false 3) wrapped_heap = OutOfFuel.
Proof.
  assert (size wrapped < idx_ (mk_Iterator false 3)) as Hlast by (unfold size; simpl; lia).
  destruct (vector_from_stale_end_never_returns wrapped wrapped_heap (mk_Iterator false 3) 5
              wf_wrapped Hlast) as (Hv & Hv' & _).
  split; [exact wf_wrapped|]. split; [exact Hlast|].
  split; [exact Hv|exact Hv'].
Defined.




Lemma clear_resets_witness :
  wf wrapped ∧ (Z.to_nat (size wrapped) < 3)%nat ∧
  ∃ h',
    clear 3 wrapped wrapped_heap
    = Ok (constructed (max_capacity_ wrapped) (buffer_ wrapped), h') ∧
    (∀ (hc : heap Z) s, ring_buffer_ctor (max_capacity_ wrapped) hc = Ok s →
             brk hc = buffer_ wrapped →
             s.1 = constructed (max_capacity_ wrapped) (buffer_ wrapped)) ∧
    size (constructed (max_capacity_ wrapped) (buffer_ wrapped)) = 0 ∧
    contents (constructed (max_capacity_ wrapped) (buffer_ wrapped)) h' = [] ∧
    cursors_linked (constructed (max_capacity_ wrapped) (buffer_ wrapped)) ∧
    frame wrapped wrapped_heap h'.
Proof.
  assert (Z.to_nat (size wrapped) < 3)%nat as Hfuel by (unfold size; simpl; lia).
  split; [exact wf_wrapped|]. split; [exact Hfuel|].
  exact (clear_resets wrapped wrapped_heap 3 wf_wrapped Hfuel).
Defined.

Lemma clear_destroys_each_once_witness :
  wf wrapped ∧ (Z.to_nat (size wrapped) < 3)%nat ∧
  ∃ s, clear 3 wrapped wrapped_heap = Ok s ∧
    (is_destructible = true →
       (destroyed s.2).*1
       = reverse (unchecked_ptr_from_idx wrapped <$> seqZ 0 (size wrapped))
         ++ (destroyed wrapped_heap).*1 ∧
       NoDup (unchecked_ptr_from_idx wrapped <$> seqZ 0 (size wrapped)) ∧
       ∀ idx, 0 ≤ idx < size wrapped →
         at_ wrapped idx = Ok (unchecked_ptr_from_idx wrapped idx) ∧
         cells s.2 !! unchecked_ptr_from_idx wrapped idx = None) ∧
    (is_destructible = false → s.2 = wrapped_heap).
Proof.
  assert (Z.to_nat (size wrapped) < 3)%nat as Hfuel by (unfold size; simpl; lia).
  split; [exact wf_wrapped|]. split; [exact Hfuel|].
  exact (clear_destroys_each_once wrapped wrapped_heap 3 wf_wrapped Hfuel).
Defined.

Lemma calls_stay_in_block_witness :
  0 ≤ 3 ∧ heap_ok (arena 10) ∧ ring_buffer_ctor 3 (arena 10) = Ok fresh3 ∧
  Forall instantiable [PushBack 1; PushFront 0] ∧
  run_calls 4 [PushBack 1; PushFront 0] fresh3
  = Ok (wrapped, mk_heap {[1 := 1; 3 := 0]} 4 10 [] []) ∧
  capacity wrapped = 3 ∧ buffer_ wrapped = buffer_ fresh3.1 ∧
  buffer_ wrapped ≤ begin_ptr_ wrapped < buffer_ wrapped + 3 ∧
  buffer_ wrapped ≤ end_ptr_ wrapped < buffer_ wrapped + 3.
Proof.
  assert (0 ≤ 3) as Hcap by lia.
  assert (ring_buffer_ctor 3 (arena 10) = Ok fresh3) as Hc by reflexivity.
  assert (Forall instantiable [PushBack 1; PushFront 0]) as Hcs
    by (repeat constructor; discriminate).
  assert (run_calls 4 [PushBack 1; PushFront 0] fresh3
          = Ok (wrapped, mk_heap {[1 := 1; 3 := 0]} 4 10 [] [])) as Hrun by reflexivity.
  destruct (calls_stay_in_block 3 (arena 10) fresh3 _ 4 _ Hcap heap_ok_arena Hc Hcs Hrun)
    as (H1 & H2 & H3 & H4 & _).
  split; [exact Hcap|]. split; [exact heap_ok_arena|]. split; [exact Hc|].
  split; [exact Hcs|]. split; [exact Hrun|].
  split; [exact H1|]. split; [exact H2|]. split; [exact H3|exact H4].
Defined.

Lemma indestructible_elements_are_never_destroyed_witness :
  @is_destructible Z indestructible_traits = false ∧
  Forall instantiable [PushBack 1; PushBack 2; PushBack 3; PushBack 4; Clear] ∧
  @run_calls Z indestructible_traits 4
    [PushBack 1; PushBack 2; PushBack 3; PushBack 4; Clear] fresh3
  = Ok (mk_ring_buffer 3 1 3 1 1 0, mk_heap {[1 := 4; 2 := 2; 3 := 3]} 4 10 [] []) ∧
  destroyed (mk_heap ({[1 := 4; 2 := 2; 3 := 3]} : gmap Z Z) 4 10 [] [])
  = destroyed fresh3.2.
Proof.
  assert (Forall instantiable [PushBack 1; PushBack 2; PushBack 3; PushBack 4; Clear])
    as Hcs by (repeat constructor; discriminate).
  assert (@run_calls Z indestructible_traits 4
            [PushBack 1; PushBack 2; PushBack 3; PushBack 4; Clear] fresh3
          = Ok (mk_ring_buffer 3 1 3 1 1 0,
                mk_heap {[1 := 4; 2 := 2; 3 := 3]} 4 10 [] [])) as Hrun by reflexivity.
  destruct (@indestructible_elements_are_never_destroyed Z indestructible_traits 4 _ _ _
              eq_refl Hcs Hrun) as [Hd _].
  split; [exact eq_refl|]. split; [exact Hcs|]. split; [exact Hrun|exact Hd].
Defined.

Lemma evictions_are_counted_witness :
  0 ≤ 2 ∧ heap_ok (arena 10) ∧
  ring_buffer_ctor 2 (arena 10) = Ok (constructed 2 1, mk_heap ∅ 3 10 [] []) ∧
  Forall inserts [EmplaceBack 7; EmplaceBack 8; EmplaceBack 9] ∧
  ∃ s, run_calls 0 [EmplaceBack 7; EmplaceBack 8; EmplaceBack 9]
         (constructed 2 1, mk_heap ∅ 3 10 [] []) = Ok s ∧
    size s.1 = Z.min (Z.of_nat 3) 2 ∧
    Z.of_nat (length (destroyed s.2))
    = Z.of_nat (length (destroyed (arena 10)))
      + if is_destructible then Z.max 0 (Z.of_nat 3 - 2) else 0.
Proof.
  assert (0 ≤ 2) as Hcap by lia.
  assert (ring_buffer_ctor 2 (arena 10) = Ok (constructed 2 1, mk_heap ∅ 3 10 [] []))
    as Hc by reflexivity.
  assert (Forall inserts [EmplaceBack 7; EmplaceBack 8; EmplaceBack 9]) as Hcs
    by (repeat constructor; discriminate).
  split; [exact Hcap|]. split; [exact heap_ok_arena|]. split; [exact Hc|].
  split; [exact Hcs|].
  exact (evictions_are_counted 2 (arena 10) _ _ 0 Hcap heap_ok_arena Hc Hcs).
Defined.

Lemma constructor_establishes_witness :
  0 ≤ 3 ∧ 1 ≤ brk (arena 10) ∧ @sizeof_ValueType Z int_traits ≠ 0 ∧
  ((∃ s, ring_buffer_ctor 3 (arena 10) = Ok s)
   ↔ 1 ≤ 3 < SIZE_MAX / 2 ∧ brk (arena 10) + 3 ≤ limit (arena 10)) ∧
  ∀ s, ring_buffer_ctor 3 (arena 10) = Ok s →
    s.1 = constructed 3 (brk (arena 10)) ∧
    size s.1 = 0 ∧ capacity s.1 = 3 ∧
    wf s.1 ∧ owns s.2 s.1 ∧ cursors_linked s.1 ∧
    contents s.1 s.2 = [] ∧
    front s.1 = Throw (out_of_bounds "at") ∧ back s.1 = Throw (out_of_bounds "at") ∧
    cells s.2 = cells (arena 10) ∧ destroyed s.2 = destroyed (arena 10) ∧
    released s.2 = released (arena 10) ∧
    brk s.2 = brk (arena 10) + 3.
Proof.
  assert (0 ≤ 3) as Hcap by lia.
  assert (1 ≤ brk (arena 10)) as Hbrk by (simpl; lia).
  assert (@sizeof_ValueType Z int_traits ≠ 0) as Hsz by (simpl; lia).
  split; [exact Hcap|]. split; [exact Hbrk|]. split; [exact Hsz|].
  exact (constructor_establishes 3 (arena 10) Hcap Hbrk Hsz).
Defined.

Lemma operator_arrow_stays_in_block_witness :
  wf wrapped ∧
  buffer_ wrapped ≤ operator_arrow wrapped (mk_Iterator false 7)
    < buffer_ wrapped + capacity wrapped ∧
  (idx_ (mk_Iterator false 7) < size wrapped →
   operator_star wrapped (mk_Iterator false 7)
   = Ok (operator_arrow wrapped (mk_Iterator false 7))).
Proof.
  split; [exact wf_wrapped|].
  exact (operator_arrow_stays_in_block wrapped (mk_Iterator false 7) wf_wrapped).
Defined.

Lemma copy_is_a_container_witness :
  wf wrapped ∧ owns wrapped_heap wrapped ∧ live wrapped wrapped_heap ∧
  (Z.to_nat (size wrapped) < 3)%nat ∧
  ring_buffer_copy_ctor 3 wrapped wrapped_heap
  = Ok (mk_ring_buffer 3 4 6 4 5 2,
        mk_heap {[1 := 1; 3 := 0; 4 := 0; 5 := 1]} 7 100 [] []) ∧
  wf (mk_ring_buffer 3 4 6 4 5 2) ∧
  cursors_linked (mk_ring_buffer 3 4 6 4 5 2) ∧
  live (mk_ring_buffer 3 4 6 4 5 2)
       (mk_heap ({[1 := 1; 3 := 0; 4 := 0; 5 := 1]} : gmap Z Z) 7 100 [] []) ∧
  begin_ptr_ (mk_ring_buffer 3 4 6 4 5 2) = buffer_ (mk_ring_buffer 3 4 6 4 5 2).
Proof.
  assert (owns wrapped_heap wrapped) as Hown by (unfold owns; simpl; lia).
  assert (Z.to_nat (size wrapped) < 3)%nat as Hfuel by (unfold size; simpl; lia).
  assert (ring_buffer_copy_ctor 3 wrapped wrapped_heap
          = Ok (mk_ring_buffer 3 4 6 4 5 2,
                mk_heap {[1 := 1; 3 := 0; 4 := 0; 5 := 1]} 7 100 [] [])) as Hcopy
    by reflexivity.
  destruct (copy_is_a_container wrapped wrapped_heap 3 _ _ wf_wrapped Hown live_wrapped
              Hfuel Hcopy) as (Hwf & _ & Hl & Hlive & Hbegin & _).
  split; [exact wf_wrapped|]. split; [exact Hown|]. split; [exact live_wrapped|].
  split; [exact Hfuel|]. split; [exact Hcopy|]. split; [exact Hwf|].
  split; [exact Hl|]. split; [exact Hlive|exact Hbegin].
Defined.
